(** * mordor/common/streams/pipe.cpp: the in-process pipe stream

    A shallow embedding of [PipeStream] and of the factory [pipeStream].
    Every method body runs under the mutex the two endpoints share, so one
    pass through a critical section is modelled as one atomic transition of
    the pair.  A method that reaches [Scheduler::getThis()->yieldTo()] ends
    the transition with the outcome [Yielded]; when the fiber is scheduled
    again it re-enters the same method with the same arguments ([read]
    recurses, [write] and [flush] loop). *)

From Stdlib Require Import ZArith List Bool Lia.
From Stdlib Require Import Strings.Byte.
Import ListNotations.
Open Scope Z_scope.

(** ** Machine integers *)

(** [size_t] is taken to be 64 bits wide; sums of two [size_t] wrap. *)
Definition SIZE_MODULUS : Z := 2 ^ 64.
Definition size_add (a b : Z) : Z := (a + b) mod SIZE_MODULUS.

(** [~0u]: all bits of a 32-bit [unsigned int], promoted to [size_t]. *)
Definition UINT_ALL_ONES : Z := 4294967295.

(** ** Collaborators that are declared outside pipe.cpp *)

(** Modelled from the spec: the enumeration [Stream::CloseType] is declared
    in stream.h, which is not part of the sources at hand.  The spec gives a
    bitmask with the members None, Read, Write and Both; Read and Write are
    the two bits and Both is their union. *)
Definition CloseType := Z.
Definition NONE : CloseType := 0.
Definition READ : CloseType := 1.
Definition WRITE : CloseType := 2.
Definition BOTH : CloseType := 3.

(** [c & flag] used as a condition. *)
Definition has (flag c : CloseType) : bool := negb (Z.land c flag =? 0).

(** Modelled from the spec: the class [Buffer] is declared in buffer.h, which
    is not part of the sources at hand.  The spec lists: report the available
    byte count, append a bounded range of another buffer, and discard a byte
    count from the front.  A buffer is the sequence of its readable bytes. *)
Module Buffer.

Definition t := list byte.

(** [b.readAvailable()] *)
Definition readAvailable (b : t) : Z := Z.of_nat (length b).

(** [dst.copyIn(src, len)]: the first [len] bytes of [src] are appended. *)
Definition copyIn (dst src : t) (len : Z) : t := dst ++ firstn (Z.to_nat len) src.

(** [b.consume(len)]: the first [len] bytes are dropped. *)
Definition consume (b : t) (len : Z) : t := skipn (Z.to_nat len) b.

End Buffer.

(** Fibers and schedulers are opaque identities for the pipe. *)
Definition Fiber := nat.
Definition Scheduler := nat.

(** ** The endpoint object *)

Record PipeStream := mkPipeStream {
  m_readBuffer : Buffer.t;
  m_bufferSize : Z;
  m_closed : CloseType;
  m_otherClosed : CloseType;
  (** A [Scheduler*] the constructor leaves uninitialised: [None] until a
      waiter stores its scheduler. *)
  m_pendingWriterScheduler : option Scheduler;
  m_pendingReaderScheduler : option Scheduler;
  m_pendingWriter : option Fiber;
  m_pendingReader : option Fiber
}.

Definition set_readBuffer (v : Buffer.t) (p : PipeStream) : PipeStream :=
  mkPipeStream v (m_bufferSize p) (m_closed p) (m_otherClosed p)
    (m_pendingWriterScheduler p) (m_pendingReaderScheduler p)
    (m_pendingWriter p) (m_pendingReader p).
Definition set_closed (v : CloseType) (p : PipeStream) : PipeStream :=
  mkPipeStream (m_readBuffer p) (m_bufferSize p) v (m_otherClosed p)
    (m_pendingWriterScheduler p) (m_pendingReaderScheduler p)
    (m_pendingWriter p) (m_pendingReader p).
Definition set_otherClosed (v : CloseType) (p : PipeStream) : PipeStream :=
  mkPipeStream (m_readBuffer p) (m_bufferSize p) (m_closed p) v
    (m_pendingWriterScheduler p) (m_pendingReaderScheduler p)
    (m_pendingWriter p) (m_pendingReader p).
Definition set_pendingWriterScheduler (v : option Scheduler) (p : PipeStream) : PipeStream :=
  mkPipeStream (m_readBuffer p) (m_bufferSize p) (m_closed p) (m_otherClosed p)
    v (m_pendingReaderScheduler p) (m_pendingWriter p) (m_pendingReader p).
Definition set_pendingReaderScheduler (v : option Scheduler) (p : PipeStream) : PipeStream :=
  mkPipeStream (m_readBuffer p) (m_bufferSize p) (m_closed p) (m_otherClosed p)
    (m_pendingWriterScheduler p) v (m_pendingWriter p) (m_pendingReader p).
Definition set_pendingWriter (v : option Fiber) (p : PipeStream) : PipeStream :=
  mkPipeStream (m_readBuffer p) (m_bufferSize p) (m_closed p) (m_otherClosed p)
    (m_pendingWriterScheduler p) (m_pendingReaderScheduler p) v (m_pendingReader p).
Definition set_pendingReader (v : option Fiber) (p : PipeStream) : PipeStream :=
  mkPipeStream (m_readBuffer p) (m_bufferSize p) (m_closed p) (m_otherClosed p)
    (m_pendingWriterScheduler p) (m_pendingReaderScheduler p) (m_pendingWriter p) v.

(** [PipeStream::PipeStream(size_t bufferSize)] *)
Definition PipeStream_ctor (bufferSize : Z) : PipeStream :=
  mkPipeStream [] bufferSize NONE NONE None None None None.

(** ** The pair *)

(** The two objects [pipeStream] returns, [result.first] and [result.second]. *)
Inductive Side := First | Second.

(** [m_otherStream] of one side designates the other side. *)
Definition other (x : Side) : Side :=
  match x with First => Second | Second => First end.

Inductive Slot := ReaderSlot | WriterSlot.

(** What a critical section does to the scheduler and to the pending-task
    fields, in program order. *)
Inductive Event :=
| EvSchedule (owner : Side) (slot : Slot) (s : Scheduler) (f : Fiber)
| EvReset (owner : Side) (slot : Slot).

(** An object is [None] once it has been destroyed: weak pointers to it are
    expired. *)
Record World := mkWorld {
  first : option PipeStream;
  second : option PipeStream;
  trace : list Event
}.

Definition deref (x : Side) (w : World) : option PipeStream :=
  match x with First => first w | Second => second w end.

Definition put (x : Side) (o : option PipeStream) (w : World) : World :=
  match x with
  | First => mkWorld o (second w) (trace w)
  | Second => mkWorld (first w) o (trace w)
  end.

(** ** Outcomes and the monad of a critical section *)

Inductive Exception :=
| BadHandleException
| BrokenPipeException
| bad_weak_ptr.

Inductive Outcome (A : Type) :=
| Returned (a : A)
| Threw (e : Exception)
| AssertionFailed
| Undefined
| Yielded.
Arguments Returned {A} a.
Arguments Threw {A} e.
Arguments AssertionFailed {A}.
Arguments Undefined {A}.
Arguments Yielded {A}.

Definition M (A : Type) : Type := World -> Outcome A * World.

Definition ret {A} (a : A) : M A := fun w => (Returned a, w).

Definition bind {A B} (m : M A) (k : A -> M B) : M B :=
  fun w =>
    match m w with
    | (Returned a, w') => k a w'
    | (Threw e, w') => (Threw e, w')
    | (AssertionFailed, w') => (AssertionFailed, w')
    | (Undefined, w') => (Undefined, w')
    | (Yielded, w') => (Yielded, w')
    end.

Declare Scope pipe_scope.
Delimit Scope pipe_scope with pipe.
Notation "x <- m ;; k" := (bind m (fun x => k))
  (at level 100, m at next level, right associativity) : pipe_scope.
Notation "m ;; k" := (bind m (fun _ => k))
  (at level 100, right associativity) : pipe_scope.
Open Scope pipe_scope.

Definition throw {A} (e : Exception) : M A := fun w => (Threw e, w).

(** Modelled from the spec: the macro [ASSERT] is defined outside pipe.cpp;
    the spec makes a failed assertion fatal and not recoverable. *)
Definition ASSERT (c : bool) : M unit :=
  fun w => if c then (Returned tt, w) else (AssertionFailed, w).

(** [Scheduler::getThis()->yieldTo()] after the lock is released. *)
Definition yieldTo {A} : M A := fun w => (Yielded, w).

(** [this]; a method run on a destroyed object has no defined behaviour. *)
Definition this_object (self : Side) : M PipeStream :=
  fun w => match deref self w with
           | Some p => (Returned p, w)
           | None => (Undefined, w)
           end.

(** [m_otherStream.expired()] *)
Definition expired (x : Side) : M bool :=
  fun w => match deref x w with
           | Some _ => (Returned false, w)
           | None => (Returned true, w)
           end.

(** [PipeStream::ptr otherStream(m_otherStream)] *)
Definition lock_weak (x : Side) : M PipeStream :=
  fun w => match deref x w with
           | Some p => (Returned p, w)
           | None => (Threw bad_weak_ptr, w)
           end.

(** Assignment to fields of the object [x]. *)
Definition update (x : Side) (f : PipeStream -> PipeStream) : M unit :=
  fun w => match deref x w with
           | Some p => (Returned tt, put x (Some (f p)) w)
           | None => (Undefined, w)
           end.

Definition emit (e : Event) : M unit :=
  fun w => (Returned tt, mkWorld (first w) (second w) (trace w ++ [e])).

(** [sched->schedule(f)] through a scheduler pointer held by [owner]. *)
Definition schedule (owner : Side) (slot : Slot) (sched : option Scheduler) (f : Fiber) : M unit :=
  match sched with
  | Some s => emit (EvSchedule owner slot s f)
  | None => fun w => (Undefined, w)
  end.

Definition isSome {A} (o : option A) : bool :=
  match o with Some _ => true | None => false end.

(** ** The factory and the methods *)

(** [pipeStream(size_t bufferSize)]: two endpoints of the same size, each the
    other's [m_otherStream], sharing one mutex. *)
Definition pipeStream (bufferSize : Z) : World :=
  let bufferSize := if bufferSize =? UINT_ALL_ONES then 65536 else bufferSize in
  mkWorld (Some (PipeStream_ctor bufferSize)) (Some (PipeStream_ctor bufferSize)) [].

(** The block [{ m_pendingReaderScheduler->schedule(m_pendingReader);
    m_pendingReader.reset(); }] of the object [self]. *)
Definition schedule_pendingReader (self : Side) : M unit :=
  this <- this_object self ;;
  match m_pendingReader this with
  | Some f =>
      schedule self ReaderSlot (m_pendingReaderScheduler this) f ;;
      update self (set_pendingReader None) ;;
      emit (EvReset self ReaderSlot)
  | None => ret tt
  end.

(** The block [{ m_pendingWriterScheduler->schedule(m_pendingWriter);
    m_pendingWriter.reset(); }] of the object [self]. *)
Definition schedule_pendingWriter (self : Side) : M unit :=
  this <- this_object self ;;
  match m_pendingWriter this with
  | Some f =>
      schedule self WriterSlot (m_pendingWriterScheduler this) f ;;
      update self (set_pendingWriter None) ;;
      emit (EvReset self WriterSlot)
  | None => ret tt
  end.

(** [PipeStream::~PipeStream()].  The last owner letting go, which expires
    the peer's weak pointer, and the destructor body are one transition; the
    object is gone afterwards. *)
Definition destroy (self : Side) : M unit :=
  this <- this_object self ;;
  gone <- expired (other self) ;;
  (if negb gone then
     otherStream <- lock_weak (other self) ;;
     ASSERT (negb (isSome (m_pendingReader otherStream))) ;;
     ASSERT (negb (isSome (m_pendingWriter otherStream)))
   else ret tt) ;;
  (if isSome (m_pendingReader this) then schedule_pendingReader self else ret tt) ;;
  (if isSome (m_pendingWriter this) then schedule_pendingWriter self else ret tt) ;;
  fun w => (Returned tt, put self None w).

(** [PipeStream::close(CloseType type)] *)
Definition close (self : Side) (type : CloseType) : M unit :=
  this <- this_object self ;;
  let closed := Z.lor (m_closed this) type in
  update self (set_closed closed) ;;
  gone <- expired (other self) ;;
  (if negb gone then update (other self) (set_otherClosed closed) else ret tt) ;;
  (if isSome (m_pendingReader this) && has WRITE closed
   then schedule_pendingReader self else ret tt) ;;
  (if isSome (m_pendingWriter this) && has READ closed
   then schedule_pendingWriter self else ret tt).

(** [PipeStream::read(Buffer &b, size_t len)], run by fiber [me] of scheduler
    [sched]: the byte count and the caller's buffer after the call. *)
Definition read (self : Side) (me : Fiber) (sched : Scheduler)
    (b : Buffer.t) (len : Z) : M (Z * Buffer.t) :=
  this <- this_object self ;;
  if has READ (m_closed this) then throw BadHandleException else
  gone <- expired (other self) ;;
  if gone && negb (has WRITE (m_otherClosed this)) then throw BrokenPipeException else
  let avail := Buffer.readAvailable (m_readBuffer this) in
  if 0 <? avail then
    let todo := Z.min len avail in
    let b' := Buffer.copyIn b (m_readBuffer this) todo in
    update self (set_readBuffer (Buffer.consume (m_readBuffer this) todo)) ;;
    (if isSome (m_pendingWriter this) then schedule_pendingWriter self else ret tt) ;;
    ret (todo, b')
  else
  if has WRITE (m_otherClosed this) then ret (0, b) else
  otherStream <- lock_weak (other self) ;;
  ASSERT (negb (isSome (m_pendingReader otherStream))) ;;
  update (other self) (set_pendingReader (Some me)) ;;
  update (other self) (set_pendingReaderScheduler (Some sched)) ;;
  yieldTo.

(** One turn of the [while (true)] loop of [write], [len] already clamped. *)
Definition write_turn (self : Side) (me : Fiber) (sched : Scheduler)
    (b : Buffer.t) (len : Z) : M Z :=
  this <- this_object self ;;
  if has WRITE (m_closed this) then throw BadHandleException else
  gone <- expired (other self) ;;
  if gone then throw BrokenPipeException else
  otherStream <- lock_weak (other self) ;;
  if has READ (m_closed otherStream) then throw BrokenPipeException else
  if size_add (Buffer.readAvailable (m_readBuffer otherStream)) len <=? m_bufferSize this then
    update (other self)
      (set_readBuffer (Buffer.copyIn (m_readBuffer otherStream) b len)) ;;
    (if isSome (m_pendingReader this) then schedule_pendingReader self else ret tt) ;;
    ret len
  else
  ASSERT (negb (isSome (m_pendingWriter otherStream))) ;;
  update (other self) (set_pendingWriter (Some me)) ;;
  update (other self) (set_pendingWriterScheduler (Some sched)) ;;
  yieldTo.

(** The clamp [if (len > m_bufferSize) len = m_bufferSize;] *)
Definition clamp (bufferSize len : Z) : Z :=
  if bufferSize <? len then bufferSize else len.

(** [PipeStream::write(const Buffer &b, size_t len)].  The clamp is
    idempotent and [m_bufferSize] is never assigned after construction, so a
    resumed writer that runs [write] again runs the next turn of the loop. *)
Definition write (self : Side) (me : Fiber) (sched : Scheduler)
    (b : Buffer.t) (len : Z) : M Z :=
  this <- this_object self ;;
  write_turn self me sched b (clamp (m_bufferSize this) len).

(** [PipeStream::flush()], one turn of its loop. *)
Definition flush (self : Side) (me : Fiber) (sched : Scheduler) : M unit :=
  this_object self ;;
  gone <- expired (other self) ;;
  if gone then throw BrokenPipeException else
  otherStream <- lock_weak (other self) ;;
  if has READ (m_closed otherStream) then throw BrokenPipeException else
  if Buffer.readAvailable (m_readBuffer otherStream) =? 0 then ret tt else
  ASSERT (negb (isSome (m_pendingWriter otherStream))) ;;
  update (other self) (set_pendingWriter (Some me)) ;;
  update (other self) (set_pendingWriterScheduler (Some sched)) ;;
  yieldTo.

(** ** Calls on a pair, and what can follow a state *)

Inductive Call :=
| CallRead (self : Side) (me : Fiber) (sched : Scheduler) (b : Buffer.t) (len : Z)
| CallWrite (self : Side) (me : Fiber) (sched : Scheduler) (b : Buffer.t) (len : Z)
| CallFlush (self : Side) (me : Fiber) (sched : Scheduler)
| CallClose (self : Side) (type : CloseType)
| CallDestroy (self : Side).

(** The state one critical section of the call leaves behind. *)
Definition exec (c : Call) (w : World) : World :=
  match c with
  | CallRead self me sched b len => snd (read self me sched b len w)
  | CallWrite self me sched b len => snd (write self me sched b len w)
  | CallFlush self me sched => snd (flush self me sched w)
  | CallClose self type => snd (close self type w)
  | CallDestroy self => snd (destroy self w)
  end.

(** The states that any sequence of critical sections leads to from [w0]. *)
Inductive reachable_from (w0 : World) : World -> Prop :=
| reach_here : reachable_from w0 w0
| reach_call : forall w c, reachable_from w0 w -> reachable_from w0 (exec c w).

(** The waiter fields of an object go in pairs: a stored fiber comes with the
    scheduler that runs it. *)
Definition slots_paired (p : PipeStream) : Prop :=
  (isSome (m_pendingReader p) = true -> isSome (m_pendingReaderScheduler p) = true) /\
  (isSome (m_pendingWriter p) = true -> isSome (m_pendingWriterScheduler p) = true).

Definition on_object (P : PipeStream -> Prop) (x : Side) (w : World) : Prop :=
  match deref x w with Some p => P p | None => True end.

(** ** Reading the trace *)

Definition same_slot (a b : Side * Slot) : bool :=
  match a, b with
  | (First, ReaderSlot), (First, ReaderSlot)
  | (First, WriterSlot), (First, WriterSlot)
  | (Second, ReaderSlot), (Second, ReaderSlot)
  | (Second, WriterSlot), (Second, WriterSlot) => true
  | _, _ => false
  end.

(** Each [schedule] out of a slot is followed at once by the [reset] of that
    slot, and no [reset] stands alone. *)
Fixpoint schedule_then_reset (evs : list Event) : bool :=
  match evs with
  | [] => true
  | EvSchedule x slot _ _ :: EvReset y slot' :: rest =>
      same_slot (x, slot) (y, slot') && schedule_then_reset rest
  | _ => false
  end.

(** The order the resumption contract of the spec asks for, read
    generously: a [schedule] out of a slot comes after some [reset] of that
    slot in the same critical section.  [cleared] lists the slots reset so
    far. *)
Fixpoint reset_before_schedule (cleared : list (Side * Slot)) (evs : list Event) : bool :=
  match evs with
  | [] => true
  | EvReset x slot :: rest => reset_before_schedule ((x, slot) :: cleared) rest
  | EvSchedule x slot _ _ :: rest =>
      existsb (same_slot (x, slot)) cleared && reset_before_schedule cleared rest
  end.

(** ** Relations between states *)

(** Between two states of one object: the size is never assigned, and a
    close flag once set stays set. *)
Definition evolves (p p' : PipeStream) : Prop :=
  m_bufferSize p' = m_bufferSize p /\
  forall flag, has flag (m_closed p) = true -> has flag (m_closed p') = true.

(** The peer after a writer has parked itself on it. *)
Definition with_pendingWriter (me : Fiber) (sched : Scheduler) (p : PipeStream) : PipeStream :=
  set_pendingWriterScheduler (Some sched) (set_pendingWriter (Some me) p).

(** The peer after a reader has parked itself on it. *)
Definition with_pendingReader (me : Fiber) (sched : Scheduler) (p : PipeStream) : PipeStream :=
  set_pendingReaderScheduler (Some sched) (set_pendingReader (Some me) p).

(** The capacity bound on the inbound buffer of an object. *)
Definition bounded (p : PipeStream) : Prop :=
  Buffer.readAvailable (m_readBuffer p) <= m_bufferSize p.

(** The pending-task field of an object that an event names. *)
Definition slot_of (slot : Slot) (p : PipeStream) : option Fiber :=
  match slot with
  | ReaderSlot => m_pendingReader p
  | WriterSlot => m_pendingWriter p
  end.

(** ** States used as concrete inputs *)

(** A pair of capacity 4 whose second endpoint holds three unread bytes. *)
Definition three_buffered : World :=
  snd (write First 1%nat 1%nat [x61; x62; x63]%byte 3 (pipeStream 4)).

(** A pair of capacity 4 with a reader of the first endpoint parked. *)
Definition reader_parked : World :=
  snd (read First 1%nat 1%nat [] 3 (pipeStream 4)).

(** [three_buffered] with a second writer of the first endpoint parked. *)
Definition writer_parked : World :=
  snd (write First 2%nat 2%nat [x64; x65]%byte 2 three_buffered).

(** The second endpoint holds three unread bytes and the first endpoint has
    been destroyed without a close. *)
Definition writer_vanished : World := snd (destroy First three_buffered).

(** The same, the first endpoint having closed Write before it went away. *)
Definition writer_closed_then_vanished : World :=
  snd (destroy First (snd (close First WRITE three_buffered))).

(** ** The capability queries, and calls seen from outside *)

(** [bool supportsRead() { return true; }] *)
Definition supportsRead (self : Side) : bool := true.

(** [bool supportsWrite() { return true; }] *)
Definition supportsWrite (self : Side) : bool := true.

(** An outcome without the value returned. *)
Definition forget {A} (r : Outcome A) : Outcome unit :=
  match r with
  | Returned _ => Returned tt
  | Threw e => Threw e
  | AssertionFailed => AssertionFailed
  | Undefined => Undefined
  | Yielded => Yielded
  end.

(** How one critical section of a call ends. *)
Definition outcome_of (c : Call) (w : World) : Outcome unit :=
  match c with
  | CallRead self me sched b len => forget (fst (read self me sched b len w))
  | CallWrite self me sched b len => forget (fst (write self me sched b len w))
  | CallFlush self me sched => forget (fst (flush self me sched w))
  | CallClose self type => forget (fst (close self type w))
  | CallDestroy self => forget (fst (destroy self w))
  end.

(** The object a call is made on. *)
Definition callee (c : Call) : Side :=
  match c with
  | CallRead self _ _ _ _ => self
  | CallWrite self _ _ _ _ => self
  | CallFlush self _ _ => self
  | CallClose self _ => self
  | CallDestroy self => self
  end.

(** The events of resuming the fiber held in one field of the object [x],
    none when the field is empty. *)
Definition wake_events (x : Side) (slot : Slot)
    (held : option Fiber) (sched : option Scheduler) : list Event :=
  match held, sched with
  | Some f, Some s => [EvSchedule x slot s f; EvReset x slot]
  | _, _ => []
  end.

(** While both endpoints live, each one's record of the peer's close state
    is the peer's own close state. *)
Definition mirrored (w : World) : Prop :=
  match first w, second w with
  | Some p, Some q =>
      m_otherClosed p = m_closed q /\ m_otherClosed q = m_closed p
  | _, _ => True
  end.

(** * Properties *)

(** ** Bit masks and buffers *)

Lemma has_lor_l (flag c t : CloseType) :
  has flag c = true -> has flag (Z.lor c t) = true.
Proof.
  unfold has. rewrite !negb_true_iff, !Z.eqb_neq.
  intros H E. apply H.
  rewrite Z.land_lor_distr_l in E.
  apply Z.lor_eq_0_iff in E. tauto.
Qed.

Lemma has_lor_r (flag c t : CloseType) :
  has flag t = true -> has flag (Z.lor c t) = true.
Proof.
  rewrite Z.lor_comm. apply has_lor_l.
Qed.

Lemma size_add_small (a b : Z) :
  0 <= a -> 0 <= b -> a + b < SIZE_MODULUS -> size_add a b = a + b.
Proof.
  intros. unfold size_add. apply Z.mod_small. lia.
Qed.

Lemma readAvailable_nonneg (b : Buffer.t) : 0 <= Buffer.readAvailable b.
Proof. unfold Buffer.readAvailable. lia. Qed.

Lemma readAvailable_copyIn (dst src : Buffer.t) (len : Z) :
  0 <= len ->
  Buffer.readAvailable (Buffer.copyIn dst src len)
  <= Buffer.readAvailable dst + len.
Proof.
  intros. unfold Buffer.readAvailable, Buffer.copyIn.
  rewrite length_app, length_firstn. lia.
Qed.

Lemma copyIn_whole (dst src : Buffer.t) :
  Buffer.copyIn dst src (Buffer.readAvailable src) = dst ++ src.
Proof.
  unfold Buffer.copyIn, Buffer.readAvailable.
  rewrite Nat2Z.id, firstn_all. reflexivity.
Qed.

Lemma consume_whole (b : Buffer.t) :
  Buffer.consume b (Buffer.readAvailable b) = [].
Proof.
  unfold Buffer.consume, Buffer.readAvailable.
  rewrite Nat2Z.id. apply skipn_all.
Qed.

Lemma clamp_le (bufferSize len : Z) : clamp bufferSize len <= bufferSize.
Proof. unfold clamp. destruct (Z.ltb_spec bufferSize len); lia. Qed.

Lemma clamp_min (bufferSize len : Z) : clamp bufferSize len = Z.min len bufferSize.
Proof. unfold clamp. destruct (Z.ltb_spec bufferSize len); lia. Qed.

(** ** The store of the two objects *)

Lemma deref_put_same (x : Side) (o : option PipeStream) (w : World) :
  deref x (put x o w) = o.
Proof. destruct x; reflexivity. Qed.

Lemma deref_put_other (x : Side) (o : option PipeStream) (w : World) :
  deref (other x) (put x o w) = deref (other x) w.
Proof. destruct x; reflexivity. Qed.

Lemma other_involutive (x : Side) : other (other x) = x.
Proof. destruct x; reflexivity. Qed.

(** Unfolds a method down to the fields of the two objects. *)
Ltac unfold_methods :=
  unfold exec, read, write, write_turn, flush, close, destroy,
    schedule_pendingReader, schedule_pendingWriter, schedule in *.

Ltac reduce_monad :=
  cbv beta iota zeta delta
    [bind ret throw ASSERT yieldTo this_object expired lock_weak update emit
     deref put other first second trace fst snd] in *;
  cbn [negb andb isSome
       m_readBuffer m_bufferSize m_closed m_otherClosed
       m_pendingWriterScheduler m_pendingReaderScheduler
       m_pendingWriter m_pendingReader
       set_readBuffer set_closed set_otherClosed set_pendingWriterScheduler
       set_pendingReaderScheduler set_pendingWriter set_pendingReader] in *.

Ltac atomic_scrutinee c :=
  lazymatch c with
  | context [match _ with Some _ => _ | None => _ end] => fail
  | context [if _ then _ else _] => fail
  | _ => idtac
  end.

Ltac split_case :=
  match goal with
  | |- context [if ?c then _ else _] => atomic_scrutinee c; destruct c eqn:?
  | |- context [match ?o with Some _ => _ | None => _ end] =>
      atomic_scrutinee o; destruct o eqn:?
  end.

Ltac crunch := unfold_methods; reduce_monad; repeat (split_case; reduce_monad).

Ltac open_world w :=
  let p1 := fresh "p1" in
  let p2 := fresh "p2" in
  let tr := fresh "tr" in
  destruct w as [[p1|] [p2|] tr].

(** ** What every call preserves *)

Lemma destroyed_stays (x : Side) (c : Call) (w : World) :
  deref x w = None -> deref x (exec c w) = None.
Proof.
  intro H. open_world w; destruct x; try discriminate H;
    destruct c as [s ? ? ? ?|s ? ? ? ?|s ? ?|s ?|s]; destruct s;
    crunch; reflexivity.
Qed.

Lemma evolves_refl (p : PipeStream) : evolves p p.
Proof. split; auto. Qed.

Lemma evolves_trans (p q r : PipeStream) :
  evolves p q -> evolves q r -> evolves p r.
Proof.
  intros [S1 F1] [S2 F2]. split; [congruence | auto].
Qed.

Ltac finish_evolves :=
  match goal with
  | |- Some ?q = Some ?p' -> _ =>
      let E := fresh in
      intro E; injection E as <-; eexists; split; [reflexivity|];
      split; cbn; auto using has_lor_l
  | |- None = Some _ -> _ => discriminate
  end.

Lemma exec_evolves (x : Side) (c : Call) (w : World) (p' : PipeStream) :
  deref x (exec c w) = Some p' ->
  exists p, deref x w = Some p /\ evolves p p'.
Proof.
  open_world w; destruct x;
    destruct c as [s ? ? ? ?|s ? ? ? ?|s ? ?|s ?|s]; destruct s;
    crunch; finish_evolves.
Qed.

Lemma reachable_evolves (x : Side) (w0 w : World) (p' : PipeStream) :
  reachable_from w0 w ->
  deref x w = Some p' ->
  exists p, deref x w0 = Some p /\ evolves p p'.
Proof.
  intro R. revert p'. induction R as [|w c R IH]; intros p' H.
  - exists p'. split; [assumption | apply evolves_refl].
  - apply exec_evolves in H. destruct H as (q & Hq & Eq).
    destruct (IH q Hq) as (p & Hp & Ep).
    exists p. split; [assumption | eapply evolves_trans; eassumption].
Qed.

Lemma reachable_destroyed (x : Side) (w0 w : World) :
  reachable_from w0 w -> deref x w0 = None -> deref x w = None.
Proof.
  induction 1; intros; auto using destroyed_stays.
Qed.

Lemma exec_slots_paired (c : Call) (w : World) :
  (forall x, on_object slots_paired x w) ->
  forall x, on_object slots_paired x (exec c w).
Proof.
  intros H x.
  pose proof (H First) as H1. pose proof (H Second) as H2. clear H.
  unfold on_object, slots_paired in *.
  revert H1 H2.
  open_world w; destruct x;
    destruct c as [s ? ? ? ?|s ? ? ? ?|s ? ?|s ?|s]; destruct s;
    crunch; intros; solve [intuition congruence].
Qed.

Lemma reachable_slots_paired (w0 w : World) :
  reachable_from w0 w ->
  (forall x, on_object slots_paired x w0) ->
  forall x, on_object slots_paired x w.
Proof.
  induction 1; intros; auto using exec_slots_paired.
Qed.

Lemma pipeStream_slots_paired (bufferSize : Z) (x : Side) :
  on_object slots_paired x (pipeStream bufferSize).
Proof.
  destruct x; cbn; split; discriminate.
Qed.

(** ** The pair the factory returns, and every state after it *)

Lemma consume_shrinks (b : Buffer.t) (len : Z) :
  Buffer.readAvailable (Buffer.consume b len) <= Buffer.readAvailable b.
Proof.
  unfold Buffer.readAvailable, Buffer.consume. rewrite length_skipn. lia.
Qed.

Lemma copyIn_within (buf b : Buffer.t) (bufferSize len : Z) :
  Buffer.readAvailable buf <= bufferSize ->
  bufferSize < 2 ^ 63 ->
  (size_add (Buffer.readAvailable buf) (clamp bufferSize len) <=? bufferSize) = true ->
  Buffer.readAvailable (Buffer.copyIn buf b (clamp bufferSize len)) <= bufferSize.
Proof.
  intros Hpre Hcap Hfit.
  pose proof (readAvailable_nonneg buf) as Havail.
  pose proof (clamp_le bufferSize len) as Hclamp.
  destruct (Z.lt_ge_cases (clamp bufferSize len) 0) as [Hneg|Hpos].
  - unfold Buffer.copyIn.
    replace (Z.to_nat (clamp bufferSize len)) with 0%nat by lia.
    cbn [firstn]. rewrite app_nil_r. exact Hpre.
  - rewrite size_add_small in Hfit by (unfold SIZE_MODULUS; lia).
    apply Z.leb_le in Hfit.
    pose proof (readAvailable_copyIn buf b _ Hpos). lia.
Qed.

Lemma exec_bounded (capacity : Z) (c : Call) (w : World) :
  capacity < 2 ^ 63 ->
  (forall x, on_object (fun p => m_bufferSize p = capacity /\ bounded p) x w) ->
  forall x, on_object (fun p => m_bufferSize p = capacity /\ bounded p) x (exec c w).
Proof.
  intros Hcap H x.
  pose proof (H First) as H1. pose proof (H Second) as H2. clear H.
  unfold on_object, bounded in *. revert H1 H2.
  open_world w; destruct x;
    destruct c as [s ? ? ? ?|s ? ? ? ?|s ? ?|s ?|s]; destruct s;
    crunch; intros H1 H2; try exact I;
    repeat match goal with H : _ /\ _ |- _ => destruct H end;
    (split; [assumption|]); try assumption;
    first
      [ eapply Z.le_trans; [apply consume_shrinks | assumption]
      | repeat match goal with
               | H : m_bufferSize _ = capacity |- _ => rewrite H in *; clear H
               end;
        apply copyIn_within; assumption ].
Qed.

Lemma reachable_bounded (capacity : Z) (w0 w : World) :
  capacity < 2 ^ 63 ->
  reachable_from w0 w ->
  (forall x, on_object (fun p => m_bufferSize p = capacity /\ bounded p) x w0) ->
  forall x, on_object (fun p => m_bufferSize p = capacity /\ bounded p) x w.
Proof.
  induction 2; intros; auto using exec_bounded.
Qed.

(** X20.  In every state that follows the creation of a pair, the two endpoints
    carry the capacity they were created with, a stored fiber comes with its
    scheduler, and, the capacity being below [2 ^ 63], no inbound buffer
    holds more than the capacity. *)
Lemma pair_invariants (bufferSize : Z) (w : World) (x : Side) :
  reachable_from (pipeStream bufferSize) w ->
  on_object slots_paired x w /\
  on_object
    (fun p => m_bufferSize p
              = if bufferSize =? UINT_ALL_ONES then 65536 else bufferSize) x w /\
  (0 <= bufferSize < 2 ^ 63 -> on_object bounded x w).
Proof.
  intro Hreach. split; [|split].
  - apply (reachable_slots_paired _ _ Hreach). apply pipeStream_slots_paired.
  - unfold on_object. destruct (deref x w) as [p'|] eqn:Hx; [|exact I].
    destruct (reachable_evolves _ _ _ _ Hreach Hx) as (p & Hp & Hsize & _).
    rewrite Hsize. destruct x; cbn in Hp; injection Hp as <-; reflexivity.
  - intros Hrange.
    set (capacity := if bufferSize =? UINT_ALL_ONES then 65536 else bufferSize).
    assert (Hcap : capacity < 2 ^ 63)
      by (subst capacity; destruct (bufferSize =? UINT_ALL_ONES); lia).
    assert (Hall : forall y,
               on_object (fun p => m_bufferSize p = capacity /\ bounded p) y w).
    { apply (reachable_bounded capacity _ _ Hcap Hreach).
      intros []; cbn; unfold bounded; cbn; fold capacity; split;
        try reflexivity; subst capacity;
        destruct (bufferSize =? UINT_ALL_ONES); lia. }
    specialize (Hall x). unfold on_object in *.
    destruct (deref x w); [tauto | exact I].
Qed.

(** ** Running a method from hypotheses on the two objects *)

Lemma deref_emit (x : Side) (w : World) (evs : list Event) :
  deref x (mkWorld (first w) (second w) evs) = deref x w.
Proof. destruct x; reflexivity. Qed.

Lemma deref_put_other' (x : Side) (o : option PipeStream) (w : World) :
  deref x (put (other x) o w) = deref x w.
Proof. destruct x; reflexivity. Qed.

Lemma trace_put (x : Side) (o : option PipeStream) (w : World) :
  trace (put x o w) = trace w.
Proof. destruct x; reflexivity. Qed.

Lemma put_put (x : Side) (o o' : option PipeStream) (w : World) :
  put x o (put x o' w) = put x o w.
Proof. destruct x; reflexivity. Qed.

Create Rewrite HintDb store.
#[local] Hint Rewrite deref_put_same deref_put_other deref_put_other'
  deref_emit trace_put put_put other_involutive : store.

Ltac unfold_prims :=
  unfold bind, ret, throw, ASSERT, yieldTo, this_object, expired, lock_weak,
    update, emit.

(** Evaluates the method in the goal as far as the facts [deref _ _ = _]
    and the boolean facts among the hypotheses decide. *)
Ltac run_step :=
  first
    [ progress autorewrite with store
    | match goal with
      | H : ?a = _ |- context [?a] =>
          tryif is_var a then fail else rewrite H
      end
    | progress cbv beta iota
    | progress change (Buffer.readAvailable []) with 0
    | progress change (0 <? 0) with false
    | progress cbn [negb andb isSome fst snd
         m_readBuffer m_bufferSize m_closed m_otherClosed
         m_pendingWriterScheduler m_pendingReaderScheduler
         m_pendingWriter m_pendingReader
         set_readBuffer set_closed set_otherClosed set_pendingWriterScheduler
         set_pendingReaderScheduler set_pendingWriter set_pendingReader] ].

Ltac run := unfold_methods; unfold_prims; repeat run_step.

Lemma set_pendingReader_idle (p : PipeStream) :
  m_pendingReader p = None -> set_pendingReader None p = p.
Proof. destruct p; cbn; intros ->; reflexivity. Qed.

Lemma set_pendingWriter_idle (p : PipeStream) :
  m_pendingWriter p = None -> set_pendingWriter None p = p.
Proof. destruct p; cbn; intros ->; reflexivity. Qed.

(** ** The two paths that move bytes *)

(** A write that passes the checks and fits: the bytes are appended to the
    peer's buffer, the reader parked on the writer's own object is resumed,
    and the length is returned. *)
Lemma write_turn_fits
    (self : Side) (me : Fiber) (sched : Scheduler) (b : Buffer.t) (len : Z)
    (w : World) (this otherStream : PipeStream) :
  deref self w = Some this ->
  deref (other self) w = Some otherStream ->
  slots_paired this ->
  has WRITE (m_closed this) = false ->
  has READ (m_closed otherStream) = false ->
  (size_add (Buffer.readAvailable (m_readBuffer otherStream)) len
     <=? m_bufferSize this) = true ->
  exists w',
    write_turn self me sched b len w = (Returned len, w') /\
    deref (other self) w'
    = Some (set_readBuffer (Buffer.copyIn (m_readBuffer otherStream) b len)
              otherStream) /\
    deref self w' = Some (set_pendingReader None this).
Proof.
  intros Hself Hother [Hpaired _] Hw Hr Hfit.
  destruct (m_pendingReader this) as [f|] eqn:Hpending.
  - destruct (m_pendingReaderScheduler this) as [s|] eqn:Hsched;
      [|specialize (Hpaired eq_refl); discriminate].
    eexists. run. split; [reflexivity|]. run. auto.
  - eexists. run. split; [reflexivity|]. run.
    rewrite (set_pendingReader_idle this Hpending). auto.
Qed.

(** A read that finds bytes: it hands over the first [min len avail] of
    them, drops them from the inbound buffer and resumes the writer parked
    on the reader's own object. *)
Lemma read_takes_bytes
    (self : Side) (me : Fiber) (sched : Scheduler) (b : Buffer.t) (len : Z)
    (w : World) (this : PipeStream) :
  deref self w = Some this ->
  slots_paired this ->
  has READ (m_closed this) = false ->
  (deref (other self) w = None -> has WRITE (m_otherClosed this) = true) ->
  0 < Buffer.readAvailable (m_readBuffer this) ->
  let todo := Z.min len (Buffer.readAvailable (m_readBuffer this)) in
  exists w',
    read self me sched b len w
    = (Returned (todo, Buffer.copyIn b (m_readBuffer this) todo), w') /\
    deref self w'
    = Some (set_pendingWriter None
              (set_readBuffer (Buffer.consume (m_readBuffer this) todo) this)) /\
    deref (other self) w' = deref (other self) w.
Proof.
  intros Hself [_ Hpaired] Hr Hgone Havail todo.
  apply Z.ltb_lt in Havail.
  assert (Hcheck : forall g,
             (match deref (other self) w with Some _ => false | None => true end
              = g) ->
             g && negb (has WRITE (m_otherClosed this)) = false).
  { intros g <-. destruct (deref (other self) w); [reflexivity|].
    rewrite Hgone by reflexivity. reflexivity. }
  destruct (m_pendingWriter this) as [f|] eqn:Hpending.
  - destruct (m_pendingWriterScheduler this) as [s|] eqn:Hsched;
      [|specialize (Hpaired eq_refl); discriminate].
    eexists. unfold read, bind at 1. unfold this_object at 1.
    rewrite Hself, Hr. unfold bind at 1, expired.
    destruct (deref (other self) w) eqn:Hother;
      rewrite (Hcheck _ eq_refl); run; subst todo;
      (split; [reflexivity|]); run; auto.
  - eexists. unfold read, bind at 1. unfold this_object at 1.
    rewrite Hself, Hr. unfold bind at 1, expired.
    destruct (deref (other self) w) eqn:Hother;
      rewrite (Hcheck _ eq_refl); run; subst todo;
      (split; [reflexivity|]); run;
      rewrite set_pendingWriter_idle by assumption; auto.
Qed.

(** ** C1: round trip *)

(** C1 (as amended).  On a pair whose two endpoints are alive, with the
    writer's Write direction and the reader's Read direction open and the
    reader's inbound buffer empty: for every byte sequence of length [N] with
    [1 <= N <= capacity], [write] of the [N] bytes returns [N], the following
    [read] of [N] bytes on the peer returns [N] and appends exactly those
    bytes, in order, to the caller's buffer, and the inbound buffer is empty
    again. *)
Theorem round_trip
    (self : Side) (me1 : Fiber) (s1 : Scheduler) (me2 : Fiber) (s2 : Scheduler)
    (data b : Buffer.t) (w : World) (this otherStream : PipeStream) :
  deref self w = Some this ->
  deref (other self) w = Some otherStream ->
  slots_paired this ->
  slots_paired otherStream ->
  has WRITE (m_closed this) = false ->
  has READ (m_closed otherStream) = false ->
  m_readBuffer otherStream = [] ->
  m_bufferSize this < SIZE_MODULUS ->
  1 <= Buffer.readAvailable data <= m_bufferSize this ->
  exists w1 w2,
    write self me1 s1 data (Buffer.readAvailable data) w
    = (Returned (Buffer.readAvailable data), w1) /\
    read (other self) me2 s2 b (Buffer.readAvailable data) w1
    = (Returned (Buffer.readAvailable data, b ++ data), w2) /\
    on_object (fun p => m_readBuffer p = []) (other self) w2.
Proof.
  intros Hself Hother Pthis Pother Hw Hr Hempty Hsize HN.
  set (N := Buffer.readAvailable data) in *.
  assert (Hclamp : clamp (m_bufferSize this) N = N)
    by (rewrite clamp_min; lia).
  assert (Hfit : (size_add (Buffer.readAvailable (m_readBuffer otherStream)) N
                  <=? m_bufferSize this) = true).
  { rewrite Hempty. cbn [Buffer.readAvailable length Z.of_nat].
    rewrite size_add_small by lia. apply Z.leb_le. lia. }
  destruct (write_turn_fits self me1 s1 data N w this otherStream
              Hself Hother Pthis Hw Hr Hfit) as (w1 & Hwrite & Hpeer & Hmine).
  rewrite Hempty in Hpeer. subst N.
  rewrite (copyIn_whole [] data) in Hpeer. cbn [app] in Hpeer.
  set (N := Buffer.readAvailable data) in *.
  destruct (read_takes_bytes (other self) me2 s2 b N w1
              (set_readBuffer data otherStream)) as (w2 & Hread & Hafter & _).
  - exact Hpeer.
  - exact Pother.
  - exact Hr.
  - rewrite other_involutive, Hmine. discriminate.
  - cbn [m_readBuffer set_readBuffer]. fold N. lia.
  - cbn [m_readBuffer set_readBuffer] in Hread, Hafter. fold N in Hread, Hafter.
    rewrite Z.min_id in Hread, Hafter. subst N.
    rewrite copyIn_whole in Hread. rewrite consume_whole in Hafter.
    exists w1, w2. split; [|split].
    + unfold write, bind, this_object. rewrite Hself, Hclamp. exact Hwrite.
    + exact Hread.
    + unfold on_object. rewrite Hafter. reflexivity.
Qed.

Lemma round_trip_witness :
  exists w1 w2,
    write First 1%nat 1%nat [x68; x69; x21]%byte 3 (pipeStream 8)
    = (Returned 3, w1) /\
    read Second 2%nat 2%nat [] 3 w1 = (Returned (3, [x68; x69; x21]%byte), w2) /\
    on_object (fun p => m_readBuffer p = []) Second w2.
Proof.
  apply (round_trip First 1%nat 1%nat 2%nat 2%nat [x68; x69; x21]%byte []
           (pipeStream 8) (PipeStream_ctor 8) (PipeStream_ctor 8)).
  - reflexivity.
  - reflexivity.
  - split; discriminate.
  - split; discriminate.
  - reflexivity.
  - reflexivity.
  - reflexivity.
  - reflexivity.
  - cbn. lia.
Defined.

(** C1 as stated fails for the empty byte sequence: [write] of 0 bytes
    returns 0, but [read] of 0 bytes on the peer finds its inbound buffer
    empty, parks the caller as pending reader and yields. *)
Lemma round_trip_fails_for_no_bytes :
  ~ (forall data : Buffer.t,
       Buffer.readAvailable data <= 4 ->
       exists w1 w2,
         write First 1%nat 1%nat data (Buffer.readAvailable data) (pipeStream 4)
         = (Returned (Buffer.readAvailable data), w1) /\
         read Second 2%nat 2%nat [] (Buffer.readAvailable data) w1
         = (Returned (Buffer.readAvailable data, data), w2)).
Proof.
  intro H.
  destruct (H [] ltac:(cbn; lia)) as (w1 & w2 & Hwrite & Hread).
  vm_compute in Hwrite. injection Hwrite as <-.
  vm_compute in Hread. discriminate Hread.
Qed.

(** ** C2: the capacity bound *)

(** C2.  Both endpoints of a pair carry the same capacity.  After a [write]
    that returns, the peer's inbound buffer holds at most that many bytes.
    A [write] that passes the close checks but whose copy would exceed the
    capacity copies nothing: the writer is stored as the pending writer and
    yields (and if a pending writer is already stored the assertion fails,
    still without a copy). *)
Theorem write_respects_capacity
    (self : Side) (me : Fiber) (sched : Scheduler) (b : Buffer.t) (len : Z)
    (w : World) (this otherStream : PipeStream) :
  deref self w = Some this ->
  deref (other self) w = Some otherStream ->
  m_bufferSize otherStream = m_bufferSize this ->
  0 <= m_bufferSize this ->
  0 <= len ->
  Buffer.readAvailable (m_readBuffer otherStream)
    + clamp (m_bufferSize this) len < SIZE_MODULUS ->
  (forall n w',
      write self me sched b len w = (Returned n, w') ->
      exists o',
        deref (other self) w' = Some o' /\
        Buffer.readAvailable (m_readBuffer o') <= m_bufferSize o') /\
  (has WRITE (m_closed this) = false ->
   has READ (m_closed otherStream) = false ->
   m_bufferSize otherStream
     < Buffer.readAvailable (m_readBuffer otherStream)
       + clamp (m_bufferSize this) len ->
   (m_pendingWriter otherStream = None ->
    write self me sched b len w
    = (Yielded, put (other self) (Some (with_pendingWriter me sched otherStream)) w)) /\
   (m_pendingWriter otherStream <> None ->
    write self me sched b len w = (AssertionFailed, w)) /\
   m_readBuffer (with_pendingWriter me sched otherStream) = m_readBuffer otherStream).
Proof.
  intros Hself Hother Hshared Hcap Hlen Hnowrap.
  assert (Hclamp : 0 <= clamp (m_bufferSize this) len)
    by (rewrite clamp_min; lia).
  pose proof (readAvailable_nonneg (m_readBuffer otherStream)) as Havail.
  pose proof (size_add_small _ _ Havail Hclamp Hnowrap) as Hsum.
  split.
  - intros n w'.
    destruct (has WRITE (m_closed this)) eqn:Hw; [run; discriminate|].
    destruct (has READ (m_closed otherStream)) eqn:Hr; [run; discriminate|].
    destruct (Buffer.readAvailable (m_readBuffer otherStream)
              + clamp (m_bufferSize this) len <=? m_bufferSize this) eqn:Hfit.
    + apply Z.leb_le in Hfit as Hle. intro Hrun.
      exists (set_readBuffer
                (Buffer.copyIn (m_readBuffer otherStream) b
                   (clamp (m_bufferSize this) len)) otherStream).
      split.
      * revert Hrun.
        destruct (m_pendingReader this) eqn:Hslot;
          [destruct (m_pendingReaderScheduler this) eqn:Hsched|];
          run; intro Hrun; inversion Hrun; subst; run; reflexivity.
      * cbn [m_readBuffer m_bufferSize set_readBuffer].
        pose proof (readAvailable_copyIn (m_readBuffer otherStream) b _ Hclamp).
        lia.
    + destruct (m_pendingWriter otherStream) eqn:Hslot; run; discriminate.
  - intros Hw Hr Hover.
    assert (Hcheck : (Buffer.readAvailable (m_readBuffer otherStream)
                      + clamp (m_bufferSize this) len <=? m_bufferSize this) = false)
      by (apply Z.leb_gt; lia).
    split; [|split].
    + intro Hfree. run. reflexivity.
    + intro Hbusy. destruct (m_pendingWriter otherStream) eqn:Hslot;
        [|congruence]. run. reflexivity.
    + reflexivity.
Qed.

Lemma write_respects_capacity_witness :
  (exists o',
      deref Second three_buffered = Some o' /\
      Buffer.readAvailable (m_readBuffer o') <= m_bufferSize o') /\
  write First 2%nat 2%nat [x64; x65]%byte 2 three_buffered
  = (Yielded,
     put Second
       (Some (with_pendingWriter 2%nat 2%nat
                (set_readBuffer [x61; x62; x63]%byte (PipeStream_ctor 4))))
       three_buffered).
Proof.
  split.
  - apply (proj1 (write_respects_capacity First 1%nat 1%nat
                    [x61; x62; x63]%byte 3 (pipeStream 4)
                    (PipeStream_ctor 4) (PipeStream_ctor 4)
                    eq_refl eq_refl eq_refl
                    ltac:(cbn; lia) ltac:(lia) ltac:(reflexivity))
             3 three_buffered).
    reflexivity.
  - apply (proj2 (write_respects_capacity First 2%nat 2%nat
                    [x64; x65]%byte 2 three_buffered
                    (PipeStream_ctor 4)
                    (set_readBuffer [x61; x62; x63]%byte (PipeStream_ctor 4))
                    eq_refl eq_refl eq_refl
                    ltac:(cbn; lia) ltac:(lia) ltac:(reflexivity))).
    + reflexivity.
    + reflexivity.
    + cbn. lia.
    + reflexivity.
Defined.

(** ** C3: end of stream *)

(** [close] on an object nobody is parked on: the flag is merged into the
    object's own [m_closed] and mirrored into the peer's [m_otherClosed]. *)
Lemma close_idle
    (self : Side) (type : CloseType) (w : World) (this otherStream : PipeStream) :
  deref self w = Some this ->
  deref (other self) w = Some otherStream ->
  m_pendingReader this = None ->
  m_pendingWriter this = None ->
  close self type w
  = (Returned tt,
     put (other self)
       (Some (set_otherClosed (Z.lor (m_closed this) type) otherStream))
       (put self (Some (set_closed (Z.lor (m_closed this) type) this)) w)).
Proof.
  intros Hself Hother Hreader Hwriter. run. reflexivity.
Qed.

(** The end-of-stream path of [read]. *)
Lemma read_at_end
    (self : Side) (me : Fiber) (sched : Scheduler) (b : Buffer.t) (len : Z)
    (w : World) (this : PipeStream) :
  deref self w = Some this ->
  has READ (m_closed this) = false ->
  m_readBuffer this = [] ->
  has WRITE (m_otherClosed this) = true ->
  read self me sched b len w = (Returned (0, b), w).
Proof.
  intros Hself Hr Hempty Hpeer.
  destruct (deref (other self) w) eqn:Hother; run; reflexivity.
Qed.

(** C3 (as amended).  On every endpoint that has not closed its own Read
    direction, whose inbound buffer is empty and whose recorded peer close
    state includes Write, [read] returns 0 and raises nothing.  On a fresh
    pair of capacity at least 5: after one endpoint writes 5 bytes and closes
    Write, the peer's [read] of 5 bytes returns them, and every further
    [read] returns 0. *)
Theorem read_end_of_stream
    (self : Side) (me : Fiber) (sched : Scheduler) (b : Buffer.t) (len : Z)
    (w : World) (this : PipeStream)
    (bufferSize : Z) (data : Buffer.t) (writer : Fiber) (wsched : Scheduler) :
  (deref self w = Some this ->
   has READ (m_closed this) = false ->
   m_readBuffer this = [] ->
   has WRITE (m_otherClosed this) = true ->
   read self me sched b len w = (Returned (0, b), w)) /\
  (Buffer.readAvailable data = 5 ->
   5 <= (if bufferSize =? UINT_ALL_ONES then 65536 else bufferSize) < SIZE_MODULUS ->
   exists w1 w2 w3,
     write self writer wsched data 5 (pipeStream bufferSize) = (Returned 5, w1) /\
     close self WRITE w1 = (Returned tt, w2) /\
     read (other self) me sched b 5 w2 = (Returned (5, b ++ data), w3) /\
     forall b' len',
       read (other self) me sched b' len' w3 = (Returned (0, b'), w3)).
Proof.
  split; [apply read_at_end|].
  intros Hfive Hcap. unfold pipeStream.
  set (capacity := if bufferSize =? UINT_ALL_ONES then 65536 else bufferSize) in *.
  set (w0 := mkWorld _ _ _).
  assert (Hboth : forall x, deref x w0 = Some (PipeStream_ctor capacity))
    by (intros []; reflexivity).
  destruct (write_turn_fits self writer wsched data 5 w0
              (PipeStream_ctor capacity) (PipeStream_ctor capacity))
    as (w1 & Hwrite & Hpeer1 & Hself1); auto.
  { split; discriminate. }
  { cbn [m_readBuffer m_bufferSize PipeStream_ctor Buffer.readAvailable length Z.of_nat].
    rewrite size_add_small by lia. apply Z.leb_le. lia. }
  cbn [m_readBuffer PipeStream_ctor] in Hpeer1.
  rewrite <- Hfive, (copyIn_whole [] data) in Hpeer1. cbn [app] in Hpeer1.
  rewrite set_pendingReader_idle in Hself1 by reflexivity.
  pose proof (close_idle self WRITE w1 _ _ Hself1 Hpeer1 eq_refl eq_refl) as Hclose.
  set (w2 := put (other self) _ _) in Hclose.
  destruct (read_takes_bytes (other self) me sched b 5 w2
              (set_otherClosed (Z.lor NONE WRITE)
                 (set_readBuffer data (PipeStream_ctor capacity))))
    as (w3 & Hread & Hafter & _).
  { subst w2. now autorewrite with store. }
  { split; discriminate. }
  { reflexivity. }
  { reflexivity. }
  { cbn [m_readBuffer set_otherClosed set_readBuffer]. lia. }
  cbn [m_readBuffer set_otherClosed set_readBuffer] in Hread, Hafter.
  rewrite Hfive, Z.min_id in Hread, Hafter.
  rewrite <- Hfive, copyIn_whole in Hread. rewrite <- Hfive, consume_whole in Hafter.
  exists w1, w2, w3. repeat split.
  - unfold write, bind, this_object. rewrite Hboth.
    cbn [m_bufferSize PipeStream_ctor].
    replace (clamp capacity 5) with 5 by (rewrite clamp_min; lia).
    exact Hwrite.
  - exact Hclose.
  - rewrite Hfive in Hread. exact Hread.
  - intros b' len'. eapply read_at_end; [exact Hafter| | |]; reflexivity.
Qed.

Lemma read_end_of_stream_witness :
  read Second 2%nat 2%nat [] 5
    (snd (close First WRITE (pipeStream 8)))
  = (Returned (0, []), snd (close First WRITE (pipeStream 8))) /\
  exists w1 w2 w3,
    write First 1%nat 1%nat [x68; x65; x6c; x6c; x6f]%byte 5 (pipeStream 8)
    = (Returned 5, w1) /\
    close First WRITE w1 = (Returned tt, w2) /\
    read Second 2%nat 2%nat [] 5 w2
    = (Returned (5, [x68; x65; x6c; x6c; x6f]%byte), w3) /\
    forall b' len', read Second 2%nat 2%nat b' len' w3 = (Returned (0, b'), w3).
Proof.
  pose proof (read_end_of_stream Second 2%nat 2%nat [] 5
                (snd (close First WRITE (pipeStream 8)))
                (set_otherClosed WRITE (PipeStream_ctor 8))
                8 [x68; x65; x6c; x6c; x6f]%byte 1%nat 1%nat) as [Hgeneral _].
  pose proof (read_end_of_stream First 2%nat 2%nat [] 5
                (pipeStream 8) (PipeStream_ctor 8)
                8 [x68; x65; x6c; x6c; x6f]%byte 1%nat 1%nat) as [_ Hscenario].
  split.
  - apply Hgeneral; reflexivity.
  - apply Hscenario; [reflexivity | cbn; lia].
Defined.

(** C3 as stated fails on an endpoint that has closed its own Read
    direction: its inbound buffer is empty and its peer has closed Write, yet
    [read] raises [BadHandleException]. *)
Lemma read_end_of_stream_fails_when_self_closed :
  ~ (forall (self : Side) (me : Fiber) (sched : Scheduler) (b : Buffer.t)
            (len : Z) (w : World) (this : PipeStream),
        deref self w = Some this ->
        m_readBuffer this = [] ->
        has WRITE (m_otherClosed this) = true ->
        fst (read self me sched b len w) = Returned (0, b)).
Proof.
  intro H.
  specialize (H Second 2%nat 2%nat [] 5
                (snd (close Second READ (snd (close First WRITE (pipeStream 8)))))
                (set_closed READ (set_otherClosed WRITE (PipeStream_ctor 8)))
                eq_refl eq_refl eq_refl).
  vm_compute in H. discriminate H.
Qed.

(** ** C4: the error conditions of write *)

(** After [close(type)] the object carries the bits of [type], whatever else
    the call did. *)
Lemma close_sets_flags (x : Side) (type : CloseType) (w : World) (a : PipeStream) :
  deref x w = Some a ->
  exists p,
    deref x (snd (close x type w)) = Some p /\
    forall flag, has flag type = true -> has flag (m_closed p) = true.
Proof.
  intro Hx. revert Hx.
  open_world w; destruct x; cbn [deref first second];
    intro Hx; try discriminate Hx; injection Hx as ->;
    crunch; eexists; (split; [reflexivity|]); cbn; auto using has_lor_r.
Qed.

(** [write] raises [BadHandleException] only out of its first check. *)
Lemma write_bad_handle_only_if_closed
    (self : Side) (me : Fiber) (sched : Scheduler) (b : Buffer.t) (len : Z)
    (w : World) (this : PipeStream) :
  deref self w = Some this ->
  has WRITE (m_closed this) = false ->
  fst (write self me sched b len w) <> Threw BadHandleException.
Proof.
  intros Hself Hopen. revert Hself.
  open_world w; destruct self; cbn [deref first second];
    intro Hself; try discriminate Hself; injection Hself as ->;
    crunch; discriminate.
Qed.

Lemma write_peer_unavailable
    (self : Side) (me : Fiber) (sched : Scheduler) (b : Buffer.t) (len : Z)
    (w : World) (this : PipeStream) :
  deref self w = Some this ->
  has WRITE (m_closed this) = false ->
  (deref (other self) w = None \/
   exists otherStream,
     deref (other self) w = Some otherStream /\
     has READ (m_closed otherStream) = true) ->
  write self me sched b len w = (Threw BrokenPipeException, w).
Proof.
  intros Hself Hopen [Hgone | (otherStream & Hother & Hclosed)];
    run; reflexivity.
Qed.

(** C4.  [write] raises [BadHandleException] exactly when the endpoint's own
    close state includes Write, the first check; otherwise it raises
    [BrokenPipeException] when the peer is gone or the peer's own close state
    includes Read.  In particular, in every state that follows a
    [close(READ)] on the peer, [write] on an endpoint whose Write direction
    is open raises [BrokenPipeException]. *)
Theorem write_error_conditions
    (self : Side) (me : Fiber) (sched : Scheduler) (b : Buffer.t) (len : Z)
    (w : World) (this : PipeStream) :
  deref self w = Some this ->
  (fst (write self me sched b len w) = Threw BadHandleException
   <-> has WRITE (m_closed this) = true) /\
  (has WRITE (m_closed this) = false ->
   (deref (other self) w = None \/
    exists otherStream,
      deref (other self) w = Some otherStream /\
      has READ (m_closed otherStream) = true) ->
   write self me sched b len w = (Threw BrokenPipeException, w)) /\
  (forall (w0 : World) (peer : PipeStream),
      deref (other self) w0 = Some peer ->
      reachable_from (snd (close (other self) READ w0)) w ->
      has WRITE (m_closed this) = false ->
      write self me sched b len w = (Threw BrokenPipeException, w)).
Proof.
  intro Hself. split; [|split].
  - split.
    + intro Hthrew. destruct (has WRITE (m_closed this)) eqn:Hflag; [reflexivity|].
      exfalso. eapply write_bad_handle_only_if_closed; eassumption.
    + intro Hflag. run. reflexivity.
  - intros Hopen Hpeer. eapply write_peer_unavailable; eassumption.
  - intros w0 peer Hpeer Hreach Hopen.
    eapply write_peer_unavailable; try eassumption.
    destruct (deref (other self) w) as [otherStream|] eqn:Hother; [right|left; reflexivity].
    exists otherStream. split; [reflexivity|].
    destruct (reachable_evolves _ _ _ _ Hreach Hother) as (p & Hp & _ & Hflags).
    destruct (close_sets_flags _ READ _ _ Hpeer) as (q & Hq & Hset).
    rewrite Hp in Hq. injection Hq as ->.
    apply Hflags, Hset. reflexivity.
Qed.

Lemma write_error_conditions_witness :
  (fst (write Second 2%nat 2%nat [x61]%byte 1
          (snd (close Second WRITE (pipeStream 8))))
   = Threw BadHandleException
   <-> has WRITE (m_closed (set_closed WRITE (PipeStream_ctor 8))) = true) /\
  write Second 2%nat 2%nat [x61]%byte 1 (snd (destroy First (pipeStream 8)))
  = (Threw BrokenPipeException, snd (destroy First (pipeStream 8))) /\
  write Second 2%nat 2%nat [x61]%byte 1
    (exec (CallClose Second READ) (snd (close First READ (pipeStream 8))))
  = (Threw BrokenPipeException,
     exec (CallClose Second READ) (snd (close First READ (pipeStream 8)))).
Proof.
  split; [|split].
  - apply (write_error_conditions Second 2%nat 2%nat [x61]%byte 1
             (snd (close Second WRITE (pipeStream 8)))
             (set_closed WRITE (PipeStream_ctor 8)) eq_refl).
  - apply (write_error_conditions Second 2%nat 2%nat [x61]%byte 1
             (snd (destroy First (pipeStream 8)))
             (PipeStream_ctor 8) eq_refl).
    + reflexivity.
    + left. reflexivity.
  - apply (proj2 (proj2 (write_error_conditions Second 2%nat 2%nat [x61]%byte 1
             (exec (CallClose Second READ) (snd (close First READ (pipeStream 8))))
             (set_closed READ (set_otherClosed READ (PipeStream_ctor 8))) eq_refl))
             (pipeStream 8) (PipeStream_ctor 8)).
    + reflexivity.
    + apply reach_call, reach_here.
    + reflexivity.
Defined.

(** ** C5: the peer is gone *)

(** C5 (as amended).  Once the peer has been destroyed it stays destroyed,
    and on the surviving endpoint: [write] with the own Write direction open
    raises [BrokenPipeException], and so does [flush]; [read] with the own Read direction open
    raises [BrokenPipeException] whenever the peer had not closed Write
    before it went away, whether or not bytes are still buffered; only when
    the peer had closed Write does a [read] that finds buffered bytes return
    them. *)
Theorem peer_gone
    (self : Side) (me : Fiber) (sched : Scheduler) (b : Buffer.t) (len : Z)
    (w : World) (this : PipeStream) :
  deref self w = Some this ->
  deref (other self) w = None ->
  (forall w', reachable_from w w' -> deref (other self) w' = None) /\
  (has WRITE (m_closed this) = false ->
   write self me sched b len w = (Threw BrokenPipeException, w)) /\
  flush self me sched w = (Threw BrokenPipeException, w) /\
  (has READ (m_closed this) = false ->
   has WRITE (m_otherClosed this) = false ->
   read self me sched b len w = (Threw BrokenPipeException, w)) /\
  (has READ (m_closed this) = false ->
   has WRITE (m_otherClosed this) = true ->
   slots_paired this ->
   0 < Buffer.readAvailable (m_readBuffer this) ->
   exists w',
     read self me sched b len w
     = (Returned (Z.min len (Buffer.readAvailable (m_readBuffer this)),
                  Buffer.copyIn b (m_readBuffer this)
                    (Z.min len (Buffer.readAvailable (m_readBuffer this)))),
        w')).
Proof.
  intros Hself Hgone. split; [|split; [|split; [|split]]].
  - intros w' Hreach. eapply reachable_destroyed; eassumption.
  - intro Hopen. apply (write_peer_unavailable _ _ _ _ _ _ _ Hself Hopen).
    left. assumption.
  - run. reflexivity.
  - intros Hopen Hpeer. run. reflexivity.
  - intros Hopen Hpeer Hpaired Havail.
    destruct (read_takes_bytes self me sched b len w this Hself Hpaired Hopen
                (fun _ => Hpeer) Havail) as (w' & Hread & _).
    exists w'. exact Hread.
Qed.

Lemma peer_gone_witness :
  deref First (exec (CallClose Second READ) writer_vanished) = None /\
  write Second 2%nat 2%nat [x64]%byte 1 writer_vanished
  = (Threw BrokenPipeException, writer_vanished) /\
  flush Second 2%nat 2%nat writer_vanished
  = (Threw BrokenPipeException, writer_vanished) /\
  read Second 2%nat 2%nat [] 3 writer_vanished
  = (Threw BrokenPipeException, writer_vanished) /\
  exists w',
    read Second 2%nat 2%nat [] 2 writer_closed_then_vanished
    = (Returned (2, [x61; x62]%byte), w').
Proof.
  pose proof (peer_gone Second 2%nat 2%nat [x64]%byte 1 writer_vanished
                (set_readBuffer [x61; x62; x63]%byte (PipeStream_ctor 4))
                eq_refl eq_refl) as (Hstays & Hwrite & Hflush & _).
  pose proof (peer_gone Second 2%nat 2%nat [] 3 writer_vanished
                (set_readBuffer [x61; x62; x63]%byte (PipeStream_ctor 4))
                eq_refl eq_refl) as (_ & _ & _ & Hread & _).
  pose proof (peer_gone Second 2%nat 2%nat [] 2 writer_closed_then_vanished
                (set_otherClosed WRITE
                   (set_readBuffer [x61; x62; x63]%byte (PipeStream_ctor 4)))
                eq_refl eq_refl) as (_ & _ & _ & _ & Hdata).
  split; [|split; [|split; [|split]]].
  - apply Hstays. apply reach_call, reach_here.
  - apply Hwrite. reflexivity.
  - exact Hflush.
  - apply Hread; reflexivity.
  - apply Hdata; [reflexivity | reflexivity | split; discriminate | cbn; lia].
Defined.

(** C5 as stated fails: the first endpoint writes three bytes and is
    destroyed without closing Write; the bytes are in the second endpoint's
    inbound buffer, its Read direction is open, and [read] raises
    [BrokenPipeException] instead of returning them. *)
Lemma buffered_read_fails_after_peer_gone :
  ~ (forall (self : Side) (me : Fiber) (sched : Scheduler) (b : Buffer.t)
            (len : Z) (w : World) (this : PipeStream),
        deref self w = Some this ->
        deref (other self) w = None ->
        has READ (m_closed this) = false ->
        0 < Buffer.readAvailable (m_readBuffer this) ->
        exists n b' w',
          read self me sched b len w = (Returned (n, b'), w')).
Proof.
  intro H.
  destruct (H Second 2%nat 2%nat [] 3 writer_vanished
              (set_readBuffer [x61; x62; x63]%byte (PipeStream_ctor 4))
              eq_refl eq_refl eq_refl ltac:(cbn; lia))
    as (n & b' & w' & Hread).
  vm_compute in Hread. discriminate Hread.
Qed.

(** ** C6 and C7: the waiter slots *)

(** A [read] that has to wait stores the caller in the field
    [m_pendingReader] of [otherStream]. *)
Lemma read_parks_on_peer
    (self : Side) (me : Fiber) (sched : Scheduler) (b : Buffer.t) (len : Z)
    (w : World) (this otherStream : PipeStream) :
  deref self w = Some this ->
  deref (other self) w = Some otherStream ->
  has READ (m_closed this) = false ->
  m_readBuffer this = [] ->
  has WRITE (m_otherClosed this) = false ->
  m_pendingReader otherStream = None ->
  read self me sched b len w
  = (Yielded, put (other self) (Some (with_pendingReader me sched otherStream)) w).
Proof.
  intros Hself Hother Hopen Hempty Hpeer Hfree. run. reflexivity.
Qed.

Lemma read_slot_taken
    (self : Side) (me : Fiber) (sched : Scheduler) (b : Buffer.t) (len : Z)
    (w : World) (this otherStream : PipeStream) :
  deref self w = Some this ->
  deref (other self) w = Some otherStream ->
  has READ (m_closed this) = false ->
  m_readBuffer this = [] ->
  has WRITE (m_otherClosed this) = false ->
  m_pendingReader otherStream <> None ->
  read self me sched b len w = (AssertionFailed, w).
Proof.
  intros Hself Hother Hopen Hempty Hpeer Hbusy.
  destruct (m_pendingReader otherStream) eqn:Hslot; [|congruence].
  run. reflexivity.
Qed.

(** C6.  Each endpoint has one field for a pending reader and one for a
    pending writer.  A [read], [write] or [flush] that has to wait while the
    field it would use already holds a fiber fails the assertion; the pair
    is left as it was, so the earlier waiter is neither replaced nor joined.
    Two reads on one endpoint with nothing to read: the first yields, the
    second fails the assertion. *)
Theorem single_waiter
    (self : Side) (me : Fiber) (sched : Scheduler) (b : Buffer.t) (len : Z)
    (w : World) (this otherStream : PipeStream) :
  deref self w = Some this ->
  deref (other self) w = Some otherStream ->
  (has READ (m_closed this) = false ->
   m_readBuffer this = [] ->
   has WRITE (m_otherClosed this) = false ->
   m_pendingReader otherStream <> None ->
   read self me sched b len w = (AssertionFailed, w)) /\
  (has WRITE (m_closed this) = false ->
   has READ (m_closed otherStream) = false ->
   (size_add (Buffer.readAvailable (m_readBuffer otherStream))
      (clamp (m_bufferSize this) len) <=? m_bufferSize this) = false ->
   m_pendingWriter otherStream <> None ->
   write self me sched b len w = (AssertionFailed, w)) /\
  (has READ (m_closed otherStream) = false ->
   Buffer.readAvailable (m_readBuffer otherStream) <> 0 ->
   m_pendingWriter otherStream <> None ->
   flush self me sched w = (AssertionFailed, w)) /\
  (has READ (m_closed this) = false ->
   m_readBuffer this = [] ->
   has WRITE (m_otherClosed this) = false ->
   m_pendingReader otherStream = None ->
   exists w1,
     read self me sched b len w = (Yielded, w1) /\
     forall me' sched' b' len',
       read self me' sched' b' len' w1 = (AssertionFailed, w1)).
Proof.
  intros Hself Hother. split; [|split; [|split]].
  - apply read_slot_taken; assumption.
  - intros Hopen Hpeer Hover Hbusy.
    destruct (m_pendingWriter otherStream) eqn:Hslot; [|congruence].
    run. reflexivity.
  - intros Hpeer Hdata Hbusy.
    destruct (m_pendingWriter otherStream) eqn:Hslot; [|congruence].
    apply Z.eqb_neq in Hdata. run. reflexivity.
  - intros Hopen Hempty Hpeer Hfree.
    exists (put (other self) (Some (with_pendingReader me sched otherStream)) w).
    split.
    + apply (read_parks_on_peer self me sched b len w this otherStream);
        assumption.
    + intros me' sched' b' len'.
      apply (read_slot_taken self me' sched' b' len' _ this
               (with_pendingReader me sched otherStream));
        autorewrite with store; try assumption; try reflexivity.
      discriminate.
Qed.

Lemma single_waiter_witness :
  read First 2%nat 2%nat [] 3 reader_parked = (AssertionFailed, reader_parked) /\
  write First 3%nat 3%nat [x66; x67]%byte 2 writer_parked
  = (AssertionFailed, writer_parked) /\
  flush First 3%nat 3%nat writer_parked = (AssertionFailed, writer_parked) /\
  exists w1,
    read First 1%nat 1%nat [] 3 (pipeStream 4) = (Yielded, w1) /\
    forall me' sched' b' len',
      read First me' sched' b' len' w1 = (AssertionFailed, w1).
Proof.
  pose proof (single_waiter First 2%nat 2%nat [] 3 reader_parked
                (PipeStream_ctor 4)
                (with_pendingReader 1%nat 1%nat (PipeStream_ctor 4))
                eq_refl eq_refl) as (Hread & _).
  pose proof (single_waiter First 3%nat 3%nat [x66; x67]%byte 2 writer_parked
                (PipeStream_ctor 4)
                (with_pendingWriter 2%nat 2%nat
                   (set_readBuffer [x61; x62; x63]%byte (PipeStream_ctor 4)))
                eq_refl eq_refl) as (_ & Hwrite & Hflush & _).
  pose proof (single_waiter First 1%nat 1%nat [] 3 (pipeStream 4)
                (PipeStream_ctor 4) (PipeStream_ctor 4)
                eq_refl eq_refl) as (_ & _ & _ & Htwice).
  split; [|split; [|split]].
  - apply Hread; try reflexivity. discriminate.
  - apply Hwrite; try reflexivity. discriminate.
  - apply Hflush; try reflexivity; discriminate.
  - apply Htwice; reflexivity.
Defined.

(** C7 (as amended).  Both kinds of waiter are stored on the peer object.  A
    [read] that has to wait stores the caller in the peer's
    [m_pendingReader] and leaves its own object alone; accordingly a [write]
    that completes with a copy resumes the reader held in the writer's own
    [m_pendingReader] (scheduled, then the field reset) and leaves the
    receiving peer's [m_pendingReader] alone.  A [write] that has to wait
    stores the caller in the peer's [m_pendingWriter]. *)
Theorem registration_slots
    (self : Side) (me : Fiber) (sched : Scheduler) (b : Buffer.t) (len : Z)
    (w : World) (this otherStream : PipeStream) :
  deref self w = Some this ->
  deref (other self) w = Some otherStream ->
  (has READ (m_closed this) = false ->
   m_readBuffer this = [] ->
   has WRITE (m_otherClosed this) = false ->
   m_pendingReader otherStream = None ->
   exists w',
     read self me sched b len w = (Yielded, w') /\
     deref (other self) w' = Some (with_pendingReader me sched otherStream) /\
     deref self w' = Some this) /\
  (forall (f : Fiber) (s : Scheduler),
      has WRITE (m_closed this) = false ->
      has READ (m_closed otherStream) = false ->
      (size_add (Buffer.readAvailable (m_readBuffer otherStream))
         (clamp (m_bufferSize this) len) <=? m_bufferSize this) = true ->
      m_pendingReader this = Some f ->
      m_pendingReaderScheduler this = Some s ->
      exists w' o',
        write self me sched b len w
        = (Returned (clamp (m_bufferSize this) len), w') /\
        trace w' = trace w ++ [EvSchedule self ReaderSlot s f; EvReset self ReaderSlot] /\
        deref self w' = Some (set_pendingReader None this) /\
        deref (other self) w' = Some o' /\
        m_pendingReader o' = m_pendingReader otherStream) /\
  (has WRITE (m_closed this) = false ->
   has READ (m_closed otherStream) = false ->
   (size_add (Buffer.readAvailable (m_readBuffer otherStream))
      (clamp (m_bufferSize this) len) <=? m_bufferSize this) = false ->
   m_pendingWriter otherStream = None ->
   exists w',
     write self me sched b len w = (Yielded, w') /\
     deref (other self) w' = Some (with_pendingWriter me sched otherStream) /\
     deref self w' = Some this).
Proof.
  intros Hself Hother. split; [|split].
  - intros Hopen Hempty Hpeer Hfree.
    exists (put (other self) (Some (with_pendingReader me sched otherStream)) w).
    split; [|split].
    + apply (read_parks_on_peer self me sched b len w this otherStream);
        assumption.
    + now autorewrite with store.
    + now autorewrite with store.
  - intros f s Hopen Hpeer Hfit Hslot Hsched.
    eexists. eexists. split; [run; reflexivity|].
    cbn [trace]. autorewrite with store.
    rewrite <- app_assoc. cbn [app].
    repeat split; reflexivity.
  - intros Hopen Hpeer Hover Hfree.
    exists (put (other self) (Some (with_pendingWriter me sched otherStream)) w).
    split; [|split].
    + run. reflexivity.
    + now autorewrite with store.
    + now autorewrite with store.
Qed.

Lemma registration_slots_witness :
  (exists w',
      read First 1%nat 1%nat [] 3 (pipeStream 4) = (Yielded, w') /\
      deref Second w' = Some (with_pendingReader 1%nat 1%nat (PipeStream_ctor 4)) /\
      deref First w' = Some (PipeStream_ctor 4)) /\
  (exists w' o',
      write Second 2%nat 2%nat [x61; x62; x63]%byte 3 reader_parked
      = (Returned 3, w') /\
      trace w' = [EvSchedule Second ReaderSlot 1%nat 1%nat; EvReset Second ReaderSlot] /\
      deref Second w' = Some (set_pendingReader None
                                (with_pendingReader 1%nat 1%nat (PipeStream_ctor 4))) /\
      deref First w' = Some o' /\
      m_pendingReader o' = None) /\
  (exists w',
      write First 2%nat 2%nat [x64; x65]%byte 2 three_buffered = (Yielded, w') /\
      deref Second w'
      = Some (with_pendingWriter 2%nat 2%nat
                (set_readBuffer [x61; x62; x63]%byte (PipeStream_ctor 4))) /\
      deref First w' = Some (PipeStream_ctor 4)).
Proof.
  pose proof (registration_slots First 1%nat 1%nat [] 3 (pipeStream 4)
                (PipeStream_ctor 4) (PipeStream_ctor 4)
                eq_refl eq_refl) as (Hread & _).
  pose proof (registration_slots Second 2%nat 2%nat [x61; x62; x63]%byte 3
                reader_parked
                (with_pendingReader 1%nat 1%nat (PipeStream_ctor 4))
                (PipeStream_ctor 4)
                eq_refl eq_refl) as (_ & Hresume & _).
  pose proof (registration_slots First 2%nat 2%nat [x64; x65]%byte 2
                three_buffered
                (PipeStream_ctor 4)
                (set_readBuffer [x61; x62; x63]%byte (PipeStream_ctor 4))
                eq_refl eq_refl) as (_ & _ & Hwrite).
  split; [|split].
  - apply Hread; reflexivity.
  - apply (Hresume 1%nat 1%nat); reflexivity.
  - apply Hwrite; reflexivity.
Defined.

(** C7 as stated fails: on a fresh pair a [read] on the first endpoint has
    to wait, and afterwards the caller is not in the first endpoint's own
    [m_pendingReader]; it is in the second endpoint's. *)
Lemma read_does_not_park_on_own_slot :
  ~ (forall (self : Side) (me : Fiber) (sched : Scheduler) (b : Buffer.t)
            (len : Z) (w w' : World),
        read self me sched b len w = (Yielded, w') ->
        exists this',
          deref self w' = Some this' /\ m_pendingReader this' = Some me).
Proof.
  intro H.
  destruct (H First 1%nat 1%nat [] 3 (pipeStream 4) reader_parked eq_refl)
    as (this' & Hthis & Hslot).
  vm_compute in Hthis. injection Hthis as <-.
  discriminate Hslot.
Qed.

(** ** C8: the order of schedule and reset *)

Ltac close_trace :=
  eexists; split;
  [ rewrite <- ?app_assoc; cbn [app];
    first [reflexivity | symmetry; apply app_nil_r]
  | split;
    [ reflexivity
    | let Hin := fresh "Hin" in
      intros ? ? ? ? Hin; cbn [In] in Hin;
      repeat match goal with
             | H : _ \/ _ |- _ => destruct H
             | H : False |- _ => destruct H
             | H : EvSchedule _ _ _ _ = EvSchedule _ _ _ _ |- _ =>
                 injection H as <- <- <- <-
             | H : EvReset _ _ = EvSchedule _ _ _ _ |- _ => discriminate H
             end;
      unfold on_object, slot_of; cbn; auto ] ].

(** C8 (as amended).  Whatever [read], [write], [flush], [close] or the
    destructor does to the scheduler and to the pending-task fields in one
    critical section comes in pairs, in this order: the fiber held in the
    field is scheduled, then the field is reset.  The fiber scheduled is
    the one the field held when the critical section began, and the field
    is empty (or its object destroyed) when the critical section ends. *)
Theorem resumption_order (c : Call) (w : World) :
  exists evs,
    trace (exec c w) = trace w ++ evs /\
    schedule_then_reset evs = true /\
    forall x slot s f,
      In (EvSchedule x slot s f) evs ->
      on_object (fun p => slot_of slot p = Some f) x w /\
      on_object (fun p => slot_of slot p = None) x (exec c w).
Proof.
  open_world w;
    destruct c as [s ? ? ? ?|s ? ? ? ?|s ? ?|s ?|s]; destruct s;
    crunch; close_trace.
Qed.

(** The reader of the second endpoint frees room while a writer is parked:
    the writer is scheduled first and the field is reset after that. *)
Example read_wakes_writer_trace :
  trace (exec (CallRead Second 3%nat 3%nat [] 3) writer_parked)
  = [EvSchedule Second WriterSlot 2%nat 2%nat; EvReset Second WriterSlot].
Proof. reflexivity. Qed.

(** C8 as stated fails: the writer is scheduled while the field still holds
    it; no reset of the field comes before. *)
Lemma reset_does_not_precede_schedule :
  ~ (forall (c : Call) (w : World),
        exists evs,
          trace (exec c w) = trace w ++ evs /\
          reset_before_schedule [] evs = true).
Proof.
  intro H.
  destruct (H (CallRead Second 3%nat 3%nat [] 3) writer_parked)
    as (evs & Htrace & Horder).
  rewrite read_wakes_writer_trace in Htrace.
  change (trace writer_parked) with (@nil Event) in Htrace.
  cbn [app] in Htrace. subst evs.
  discriminate Horder.
Qed.

(** ** C9: the factory *)

(** C9 (as amended).  [pipeStream] checks nothing about its argument: for
    every value, zero included, it returns two live endpoints.  Both carry
    the same capacity, 65536 when the argument is the all-ones value [~0u]
    and the argument itself otherwise; their buffers are empty, no close
    flag is set and nobody is parked. *)
Theorem pipeStream_capacity (bufferSize : Z) (x : Side) :
  deref x (pipeStream bufferSize)
  = Some (PipeStream_ctor
            (if bufferSize =? 4294967295 then 65536 else bufferSize)) /\
  deref x (pipeStream UINT_ALL_ONES) = Some (PipeStream_ctor 65536) /\
  deref x (pipeStream 0) = Some (PipeStream_ctor 0) /\
  trace (pipeStream bufferSize) = [].
Proof.
  destruct x; repeat split.
Qed.

(** C9 as stated fails: the factory accepts the capacity 0. *)
Lemma pipeStream_accepts_zero :
  ~ (forall bufferSize : Z,
        0 <= bufferSize < SIZE_MODULUS ->
        (exists p q, pipeStream bufferSize = mkWorld (Some p) (Some q) []) ->
        0 < bufferSize).
Proof.
  intro H.
  assert (Hzero : 0 < 0).
  { apply H; [cbn; lia|].
    exists (PipeStream_ctor 0), (PipeStream_ctor 0). reflexivity. }
  lia.
Qed.

(** A pipe of capacity 0 clamps every write to nothing. *)
Example zero_capacity_write :
  fst (write First 1%nat 1%nat [x61; x62]%byte 2 (pipeStream 0)) = Returned 0.
Proof. reflexivity. Qed.
(** ** C10: flush and the caller's own close flags *)

(** C10.  [flush] does not look at the caller's own close flags: on an
    endpoint that has closed its Write direction it still returns, and
    leaves the pair as it was, whenever the peer is alive, the peer has not
    closed Read and the peer's inbound buffer is empty. *)
Theorem flush_ignores_own_write_close
    (self : Side) (me : Fiber) (sched : Scheduler) (w : World)
    (this otherStream : PipeStream) :
  deref self w = Some this ->
  has WRITE (m_closed this) = true ->
  deref (other self) w = Some otherStream ->
  has READ (m_closed otherStream) = false ->
  Buffer.readAvailable (m_readBuffer otherStream) = 0 ->
  flush self me sched w = (Returned tt, w).
Proof.
  intros Hself Hclosed Hother Hread Hempty.
  run. reflexivity.
Qed.

Lemma flush_ignores_own_write_close_witness :
  flush First 1%nat 1%nat (snd (close First WRITE (pipeStream 8)))
  = (Returned tt, snd (close First WRITE (pipeStream 8))).
Proof.
  apply (flush_ignores_own_write_close First 1%nat 1%nat
           (snd (close First WRITE (pipeStream 8)))
           (set_closed WRITE (PipeStream_ctor 8))
           (set_otherClosed WRITE (PipeStream_ctor 8)));
    reflexivity.
Defined.

(** [write] on the same endpoint does check the flag. *)
Example write_checks_own_write_close :
  fst (write First 1%nat 1%nat [] 0 (snd (close First WRITE (pipeStream 8))))
  = Threw BadHandleException.
Proof. reflexivity. Qed.

(** * Further properties of the methods *)

(** ** What a returning write and a returning read do to the bytes *)

(** X1.  Whenever [write] returns, the count returned is the requested
    length clamped to the writer's capacity, exactly the first that many
    bytes of the source are appended to the peer's inbound buffer behind
    what it held, and the writer's own inbound buffer is untouched. *)
Theorem write_appends_clamped
    (self : Side) (me : Fiber) (sched : Scheduler) (b : Buffer.t) (len : Z)
    (w w' : World) (this otherStream : PipeStream) (n : Z) :
  deref self w = Some this ->
  deref (other self) w = Some otherStream ->
  write self me sched b len w = (Returned n, w') ->
  n = Z.min len (m_bufferSize this) /\
  exists this' otherStream',
    deref self w' = Some this' /\
    deref (other self) w' = Some otherStream' /\
    m_readBuffer otherStream'
    = m_readBuffer otherStream ++ firstn (Z.to_nat n) b /\
    m_readBuffer this' = m_readBuffer this.
Proof.
  intros Hself Hother.
  rewrite <- clamp_min.
  destruct (has WRITE (m_closed this)) eqn:Hw; [run; discriminate|].
  destruct (has READ (m_closed otherStream)) eqn:Hr; [run; discriminate|].
  destruct (size_add (Buffer.readAvailable (m_readBuffer otherStream))
              (clamp (m_bufferSize this) len) <=? m_bufferSize this) eqn:Hfit.
  - destruct (m_pendingReader this) eqn:Hslot;
      [destruct (m_pendingReaderScheduler this) eqn:Hsched|];
      run; intro Hrun; inversion Hrun; subst;
      (split; [reflexivity|]);
      eexists; eexists; run; repeat split; reflexivity.
  - destruct (m_pendingWriter otherStream) eqn:Hslot; run; discriminate.
Qed.

Lemma write_appends_clamped_witness :
  4 = Z.min 5 4 /\
  exists this' otherStream',
    deref First
      (snd (write First 1%nat 1%nat [x61; x62; x63; x64; x65]%byte 5 (pipeStream 4)))
    = Some this' /\
    deref Second
      (snd (write First 1%nat 1%nat [x61; x62; x63; x64; x65]%byte 5 (pipeStream 4)))
    = Some otherStream' /\
    m_readBuffer otherStream'
    = [] ++ firstn (Z.to_nat 4) [x61; x62; x63; x64; x65]%byte /\
    m_readBuffer this' = [].
Proof.
  apply (write_appends_clamped First 1%nat 1%nat [x61; x62; x63; x64; x65]%byte 5
           (pipeStream 4)
           (snd (write First 1%nat 1%nat [x61; x62; x63; x64; x65]%byte 5
                   (pipeStream 4)))
           (PipeStream_ctor 4) (PipeStream_ctor 4) 4);
    reflexivity.
Defined.

(** X2.  Whenever [read] returns, the bytes appended to the caller's buffer
    are a prefix of the inbound buffer, the inbound buffer keeps exactly the
    rest, and the count returned is the number of bytes delivered, at most
    the length asked for: no byte is lost, repeated or reordered. *)
Theorem read_conserves_bytes
    (self : Side) (me : Fiber) (sched : Scheduler) (b b' : Buffer.t) (len n : Z)
    (w w' : World) (this : PipeStream) :
  deref self w = Some this ->
  0 <= len ->
  read self me sched b len w = (Returned (n, b'), w') ->
  exists delivered this',
    deref self w' = Some this' /\
    b' = b ++ delivered /\
    delivered ++ m_readBuffer this' = m_readBuffer this /\
    Buffer.readAvailable delivered = n /\
    n <= len.
Proof.
  intros Hself Hlen.
  destruct (has READ (m_closed this)) eqn:Hr; [run; discriminate|].
  unfold read, bind at 1. unfold this_object at 1. rewrite Hself, Hr.
  unfold bind at 1, expired.
  destruct (deref (other self) w) as [otherStream|] eqn:Hother;
    cbv beta iota.
  - cbn [andb].
    destruct (0 <? Buffer.readAvailable (m_readBuffer this)) eqn:Havail.
    + apply Z.ltb_lt in Havail.
      set (todo := Z.min len (Buffer.readAvailable (m_readBuffer this))).
      destruct (m_pendingWriter this) eqn:Hslot;
        [destruct (m_pendingWriterScheduler this) eqn:Hsched|];
        run; intro Hrun; inversion Hrun; subst;
        exists (firstn (Z.to_nat todo) (m_readBuffer this));
        eexists; run; (split; [reflexivity|]); (split; [reflexivity|]);
        cbn [m_readBuffer set_readBuffer set_pendingWriter];
        unfold Buffer.consume, Buffer.readAvailable in *;
        rewrite firstn_skipn, length_firstn; subst todo;
        repeat split; lia.
    + apply Z.ltb_ge in Havail.
      pose proof (readAvailable_nonneg (m_readBuffer this)) as Hnonneg.
      destruct (has WRITE (m_otherClosed this)) eqn:Hpeer.
      * run. intro Hrun. inversion Hrun; subst.
        exists [], this. rewrite app_nil_r. repeat split; auto.
      * destruct (m_pendingReader otherStream) eqn:Hslot; run; discriminate.
  - destruct (has WRITE (m_otherClosed this)) eqn:Hpeer; cbn [negb andb];
      [|run; discriminate].
    destruct (0 <? Buffer.readAvailable (m_readBuffer this)) eqn:Havail.
    + apply Z.ltb_lt in Havail.
      set (todo := Z.min len (Buffer.readAvailable (m_readBuffer this))).
      destruct (m_pendingWriter this) eqn:Hslot;
        [destruct (m_pendingWriterScheduler this) eqn:Hsched|];
        run; intro Hrun; inversion Hrun; subst;
        exists (firstn (Z.to_nat todo) (m_readBuffer this));
        eexists; run; (split; [reflexivity|]); (split; [reflexivity|]);
        cbn [m_readBuffer set_readBuffer set_pendingWriter];
        unfold Buffer.consume, Buffer.readAvailable in *;
        rewrite firstn_skipn, length_firstn; subst todo;
        repeat split; lia.
    + run. intro Hrun. inversion Hrun; subst.
      exists [], this. rewrite app_nil_r. repeat split; auto.
Qed.

Lemma read_conserves_bytes_witness :
  exists delivered this',
    deref Second (snd (read Second 2%nat 2%nat [x30]%byte 2 three_buffered))
    = Some this' /\
    [x30; x61; x62]%byte = [x30]%byte ++ delivered /\
    delivered ++ m_readBuffer this' = [x61; x62; x63]%byte /\
    Buffer.readAvailable delivered = 2 /\
    2 <= 2.
Proof.
  apply (read_conserves_bytes Second 2%nat 2%nat [x30]%byte [x30; x61; x62]%byte
           2 2 three_buffered
           (snd (read Second 2%nat 2%nat [x30]%byte 2 three_buffered))
           (set_readBuffer [x61; x62; x63]%byte (PipeStream_ctor 4)));
    [reflexivity | lia | reflexivity].
Defined.

(** ** How writes and reads compose *)

(** A write of a whole byte sequence that fits behind what the peer holds. *)
Lemma write_whole
    (self : Side) (me : Fiber) (sched : Scheduler) (d : Buffer.t)
    (w : World) (this otherStream : PipeStream) :
  deref self w = Some this ->
  deref (other self) w = Some otherStream ->
  slots_paired this ->
  has WRITE (m_closed this) = false ->
  has READ (m_closed otherStream) = false ->
  Buffer.readAvailable (m_readBuffer otherStream) + Buffer.readAvailable d
    <= m_bufferSize this ->
  m_bufferSize this < SIZE_MODULUS ->
  exists w',
    write self me sched d (Buffer.readAvailable d) w
    = (Returned (Buffer.readAvailable d), w') /\
    deref (other self) w'
    = Some (set_readBuffer (m_readBuffer otherStream ++ d) otherStream) /\
    deref self w' = Some (set_pendingReader None this) /\
    (m_pendingReader this = None -> trace w' = trace w).
Proof.
  intros Hself Hother Hpaired Hw Hr Hroom Hsize.
  pose proof (readAvailable_nonneg (m_readBuffer otherStream)) as Hbuf.
  pose proof (readAvailable_nonneg d) as Hd.
  assert (Hclamp : clamp (m_bufferSize this) (Buffer.readAvailable d)
                   = Buffer.readAvailable d) by (rewrite clamp_min; lia).
  assert (Hfit : (size_add (Buffer.readAvailable (m_readBuffer otherStream))
                    (Buffer.readAvailable d) <=? m_bufferSize this) = true).
  { rewrite size_add_small by lia. apply Z.leb_le. lia. }
  destruct (write_turn_fits self me sched d (Buffer.readAvailable d) w
              this otherStream Hself Hother Hpaired Hw Hr Hfit)
    as (w' & Hwrite & Hpeer & Hmine).
  rewrite copyIn_whole in Hpeer.
  exists w'. split; [|split; [|split]]; try assumption.
  - unfold write, bind, this_object. rewrite Hself, Hclamp. exact Hwrite.
  - intro Hidle. revert Hwrite. run. intro Hrun. inversion Hrun.
    now autorewrite with store.
Qed.

Lemma slots_paired_set_pendingReader (p : PipeStream) :
  slots_paired p -> slots_paired (set_pendingReader None p).
Proof.
  intros [_ Hwriter]. split; [discriminate | exact Hwriter].
Qed.

(** X3.  Two writes that fit together behind what the peer already holds,
    followed by one read of everything: the reader receives the bytes held
    before, then the bytes of the first write, then those of the second, and
    its inbound buffer is empty afterwards. *)
Theorem writes_are_read_in_order
    (self : Side) (me : Fiber) (sched : Scheduler)
    (reader : Fiber) (rsched : Scheduler)
    (d1 d2 b : Buffer.t) (w : World) (this otherStream : PipeStream) :
  deref self w = Some this ->
  deref (other self) w = Some otherStream ->
  slots_paired this ->
  slots_paired otherStream ->
  has WRITE (m_closed this) = false ->
  has READ (m_closed otherStream) = false ->
  m_bufferSize this < SIZE_MODULUS ->
  Buffer.readAvailable (m_readBuffer otherStream)
    + Buffer.readAvailable d1 + Buffer.readAvailable d2 <= m_bufferSize this ->
  0 < Buffer.readAvailable (m_readBuffer otherStream)
      + Buffer.readAvailable d1 + Buffer.readAvailable d2 ->
  exists w1 w2 w3,
    write self me sched d1 (Buffer.readAvailable d1) w
    = (Returned (Buffer.readAvailable d1), w1) /\
    write self me sched d2 (Buffer.readAvailable d2) w1
    = (Returned (Buffer.readAvailable d2), w2) /\
    read (other self) reader rsched b
      (Buffer.readAvailable (m_readBuffer otherStream)
       + Buffer.readAvailable d1 + Buffer.readAvailable d2) w2
    = (Returned
         (Buffer.readAvailable (m_readBuffer otherStream)
          + Buffer.readAvailable d1 + Buffer.readAvailable d2,
          b ++ m_readBuffer otherStream ++ d1 ++ d2), w3) /\
    on_object (fun p => m_readBuffer p = []) (other self) w3.
Proof.
  intros Hself Hother Pthis Pother Hw Hr Hsize Hroom Hsome.
  pose proof (readAvailable_nonneg (m_readBuffer otherStream)) as Hbuf.
  pose proof (readAvailable_nonneg d1) as H1.
  pose proof (readAvailable_nonneg d2) as H2.
  destruct (write_whole self me sched d1 w this otherStream)
    as (w1 & Hwrite1 & Hpeer1 & Hmine1 & _); try assumption; [lia|].
  destruct (write_whole self me sched d2 w1
              (set_pendingReader None this)
              (set_readBuffer (m_readBuffer otherStream ++ d1) otherStream))
    as (w2 & Hwrite2 & Hpeer2 & Hmine2 & _); try assumption.
  { now apply slots_paired_set_pendingReader. }
  { cbn [m_readBuffer set_readBuffer m_bufferSize set_pendingReader].
    unfold Buffer.readAvailable in *. rewrite length_app. lia. }
  cbn [m_readBuffer set_readBuffer] in Hpeer2.
  set (total := Buffer.readAvailable (m_readBuffer otherStream)
                + Buffer.readAvailable d1 + Buffer.readAvailable d2) in *.
  set (held := (m_readBuffer otherStream ++ d1) ++ d2) in *.
  assert (Hheld : Buffer.readAvailable held = total).
  { subst held total. unfold Buffer.readAvailable.
    rewrite !length_app. lia. }
  destruct (read_takes_bytes (other self) reader rsched b total w2
              (set_readBuffer held
                 (set_readBuffer (m_readBuffer otherStream ++ d1) otherStream)))
    as (w3 & Hread & Hafter & _).
  - exact Hpeer2.
  - exact Pother.
  - exact Hr.
  - rewrite other_involutive, Hmine2. discriminate.
  - cbn [m_readBuffer set_readBuffer]. lia.
  - cbn [m_readBuffer set_readBuffer] in Hread, Hafter.
    rewrite Hheld, Z.min_id in Hread, Hafter.
    replace (Buffer.copyIn b held total) with (b ++ held) in Hread
      by (rewrite <- Hheld; symmetry; apply copyIn_whole).
    replace (Buffer.consume held total) with (@nil byte) in Hafter
      by (rewrite <- Hheld; symmetry; apply consume_whole).
    exists w1, w2, w3. repeat split; try assumption.
    + rewrite Hread. subst held. now rewrite <- app_assoc.
    + unfold on_object. rewrite Hafter. reflexivity.
Qed.

Lemma writes_are_read_in_order_witness :
  exists w1 w2 w3,
    write First 1%nat 1%nat [x61; x62]%byte 2 (pipeStream 8) = (Returned 2, w1) /\
    write First 1%nat 1%nat [x63]%byte 1 w1 = (Returned 1, w2) /\
    read Second 2%nat 2%nat [] (0 + 2 + 1) w2
    = (Returned (0 + 2 + 1, [] ++ [] ++ [x61; x62]%byte ++ [x63]%byte), w3) /\
    on_object (fun p => m_readBuffer p = []) Second w3.
Proof.
  apply (writes_are_read_in_order First 1%nat 1%nat 2%nat 2%nat
           [x61; x62]%byte [x63]%byte [] (pipeStream 8)
           (PipeStream_ctor 8) (PipeStream_ctor 8));
    try reflexivity; try (split; discriminate); cbn; lia.
Defined.

(** A read that finds bytes while a writer is stored on the reader's own
    object: the writer is scheduled and the field reset. *)
Lemma read_resumes_writer
    (self : Side) (me : Fiber) (sched : Scheduler) (b : Buffer.t) (len : Z)
    (w : World) (this : PipeStream) (f : Fiber) (s : Scheduler) :
  deref self w = Some this ->
  has READ (m_closed this) = false ->
  (deref (other self) w = None -> has WRITE (m_otherClosed this) = true) ->
  0 < Buffer.readAvailable (m_readBuffer this) ->
  m_pendingWriter this = Some f ->
  m_pendingWriterScheduler this = Some s ->
  let todo := Z.min len (Buffer.readAvailable (m_readBuffer this)) in
  exists w',
    read self me sched b len w
    = (Returned (todo, Buffer.copyIn b (m_readBuffer this) todo), w') /\
    deref self w'
    = Some (set_pendingWriter None
              (set_readBuffer (Buffer.consume (m_readBuffer this) todo) this)) /\
    deref (other self) w' = deref (other self) w /\
    trace w' = trace w ++ [EvSchedule self WriterSlot s f; EvReset self WriterSlot].
Proof.
  intros Hself Hr Hgone Havail Hslot Hsched todo.
  apply Z.ltb_lt in Havail.
  assert (Hcheck : forall g,
             (match deref (other self) w with Some _ => false | None => true end
              = g) ->
             g && negb (has WRITE (m_otherClosed this)) = false).
  { intros g <-. destruct (deref (other self) w); [reflexivity|].
    rewrite Hgone by reflexivity. reflexivity. }
  eexists. unfold read, bind at 1. unfold this_object at 1.
  rewrite Hself, Hr. unfold bind at 1, expired.
  destruct (deref (other self) w) eqn:Hother;
    rewrite (Hcheck _ eq_refl); run; subst todo;
    (split; [reflexivity|]); run; cbn [trace]; autorewrite with store;
    rewrite <- app_assoc; auto.
Qed.

(** X4.  Backpressure.  A write that does not fit behind what the peer
    holds stores the writer on the peer and yields without copying.  A read
    on the peer then delivers bytes from the front, schedules the stored
    writer and resets the field.  If the bytes left and the bytes to write
    now fit, the writer's next turn returns the full length and the peer
    holds the bytes left followed by the bytes written. *)
Theorem blocked_write_completes_after_read
    (self : Side) (me : Fiber) (sched : Scheduler)
    (reader : Fiber) (rsched : Scheduler)
    (d b : Buffer.t) (k : Z) (w : World) (this otherStream : PipeStream) :
  deref self w = Some this ->
  deref (other self) w = Some otherStream ->
  slots_paired this ->
  m_pendingWriter otherStream = None ->
  has WRITE (m_closed this) = false ->
  has READ (m_closed otherStream) = false ->
  m_bufferSize this < SIZE_MODULUS ->
  Buffer.readAvailable d <= m_bufferSize this ->
  m_bufferSize this
    < Buffer.readAvailable (m_readBuffer otherStream) + Buffer.readAvailable d ->
  Buffer.readAvailable (m_readBuffer otherStream) + Buffer.readAvailable d
    < SIZE_MODULUS ->
  0 < k ->
  Buffer.readAvailable (m_readBuffer otherStream)
    - Z.min k (Buffer.readAvailable (m_readBuffer otherStream))
    + Buffer.readAvailable d <= m_bufferSize this ->
  let todo := Z.min k (Buffer.readAvailable (m_readBuffer otherStream)) in
  exists w1 w2 w3 otherStream3,
    write self me sched d (Buffer.readAvailable d) w = (Yielded, w1) /\
    deref (other self) w1 = Some (with_pendingWriter me sched otherStream) /\
    read (other self) reader rsched b k w1
    = (Returned (todo, b ++ firstn (Z.to_nat todo) (m_readBuffer otherStream)), w2) /\
    trace w2
    = trace w ++ [EvSchedule (other self) WriterSlot sched me;
                  EvReset (other self) WriterSlot] /\
    write self me sched d (Buffer.readAvailable d) w2
    = (Returned (Buffer.readAvailable d), w3) /\
    deref (other self) w3 = Some otherStream3 /\
    m_readBuffer otherStream3
    = skipn (Z.to_nat todo) (m_readBuffer otherStream) ++ d.
Proof.
  intros Hself Hother Pthis Hfree Hw Hr Hsize Hd Hover Hnowrap Hk Hroom todo.
  pose proof (readAvailable_nonneg (m_readBuffer otherStream)) as Hbuf.
  pose proof (readAvailable_nonneg d) as Hdn.
  assert (Hclamp : clamp (m_bufferSize this) (Buffer.readAvailable d)
                   = Buffer.readAvailable d) by (rewrite clamp_min; lia).
  assert (Hsum : size_add (Buffer.readAvailable (m_readBuffer otherStream))
                   (Buffer.readAvailable d)
                 = Buffer.readAvailable (m_readBuffer otherStream)
                   + Buffer.readAvailable d)
    by (apply size_add_small; lia).
  assert (Hcheck : (Buffer.readAvailable (m_readBuffer otherStream)
                    + Buffer.readAvailable d <=? m_bufferSize this) = false)
    by (apply Z.leb_gt; lia).
  assert (Havail : (0 <? Buffer.readAvailable (m_readBuffer otherStream)) = true)
    by (apply Z.ltb_lt; lia).
  set (w1 := put (other self) (Some (with_pendingWriter me sched otherStream)) w).
  assert (Hwrite1 : write self me sched d (Buffer.readAvailable d) w = (Yielded, w1)).
  { subst w1. run. reflexivity. }
  assert (Hself1 : deref self w1 = Some this)
    by (subst w1; now autorewrite with store).
  assert (Hother1 : deref (other self) w1
                    = Some (with_pendingWriter me sched otherStream))
    by (subst w1; now autorewrite with store).
  assert (Htrace1 : trace w1 = trace w)
    by (subst w1; now autorewrite with store).
  set (left_over := set_pendingWriter None
                      (set_readBuffer
                         (Buffer.consume (m_readBuffer otherStream) todo)
                         (with_pendingWriter me sched otherStream))).
  destruct (read_resumes_writer (other self) reader rsched b k w1
              (with_pendingWriter me sched otherStream) me sched)
    as (w2 & Hread & Hother2 & Hself2 & Htrace2);
    try reflexivity; try assumption.
  { rewrite other_involutive, Hself1. discriminate. }
  { apply Z.ltb_lt. exact Havail. }
  cbn [m_readBuffer with_pendingWriter set_pendingWriterScheduler
         set_pendingWriter] in Hread, Hother2.
  fold (with_pendingWriter me sched otherStream) in Hother2.
  fold todo in Hread, Hother2. fold left_over in Hother2.
  rewrite other_involutive, Hself1 in Hself2.
  rewrite Htrace1 in Htrace2.
  destruct (write_whole self me sched d w2 this left_over)
    as (w3 & Hwrite3 & Hpeer3 & _); try assumption.
  { subst left_over. cbn [m_readBuffer set_pendingWriter set_readBuffer].
    unfold Buffer.consume, Buffer.readAvailable in *.
    rewrite length_skipn. subst todo. lia. }
  exists w1, w2, w3. eexists.
  split; [exact Hwrite1|]. split; [exact Hother1|].
  split; [exact Hread|]. split; [exact Htrace2|].
  split; [exact Hwrite3|]. split; [exact Hpeer3|].
  reflexivity.
Qed.

Lemma blocked_write_completes_after_read_witness :
  exists w1 w2 w3 otherStream3,
    write First 2%nat 2%nat [x64; x65]%byte 2 three_buffered = (Yielded, w1) /\
    deref Second w1
    = Some (with_pendingWriter 2%nat 2%nat
              (set_readBuffer [x61; x62; x63]%byte (PipeStream_ctor 4))) /\
    read Second 3%nat 3%nat [] 2 w1 = (Returned (2, [x61; x62]%byte), w2) /\
    trace w2 = [EvSchedule Second WriterSlot 2%nat 2%nat; EvReset Second WriterSlot] /\
    write First 2%nat 2%nat [x64; x65]%byte 2 w2 = (Returned 2, w3) /\
    deref Second w3 = Some otherStream3 /\
    m_readBuffer otherStream3 = [x63; x64; x65]%byte.
Proof.
  apply (blocked_write_completes_after_read First 2%nat 2%nat 3%nat 3%nat
           [x64; x65]%byte [] 2 three_buffered
           (PipeStream_ctor 4)
           (set_readBuffer [x61; x62; x63]%byte (PipeStream_ctor 4)));
    try reflexivity; try (split; discriminate); cbn; lia.
Defined.

(** ** close and the destructor *)

(** Closes a case in which a stored fiber has no scheduler, against the
    unfolded [slots_paired] hypothesis [H]. *)
Ltac absurd_slots H :=
  exfalso; destruct H as [? ?]; cbn [isSome] in *;
  match goal with
  | P : true = true -> false = true |- _ => discriminate (P eq_refl)
  end.

(** X5.  [close] never fails.  It merges the direction into the endpoint's
    own close state and, when the peer is alive, copies the merged value into
    the peer's record of it; the peer's own close state and both inbound
    buffers are left alone.  With the peer gone only the own state changes. *)
Theorem close_merges_and_mirrors
    (self : Side) (type : CloseType) (w : World) (this : PipeStream) :
  deref self w = Some this ->
  slots_paired this ->
  exists w' this',
    close self type w = (Returned tt, w') /\
    deref self w' = Some this' /\
    m_closed this' = Z.lor (m_closed this) type /\
    m_otherClosed this' = m_otherClosed this /\
    m_readBuffer this' = m_readBuffer this /\
    match deref (other self) w with
    | Some otherStream =>
        exists otherStream',
          deref (other self) w' = Some otherStream' /\
          m_otherClosed otherStream' = Z.lor (m_closed this) type /\
          m_closed otherStream' = m_closed otherStream /\
          m_readBuffer otherStream' = m_readBuffer otherStream /\
          m_pendingReader otherStream' = m_pendingReader otherStream /\
          m_pendingWriter otherStream' = m_pendingWriter otherStream
    | None => deref (other self) w' = None
    end.
Proof.
  intros Hself Hpaired. unfold slots_paired in Hpaired. revert Hself.
  open_world w; destruct self; cbn [deref first second other];
    intro Hself; try discriminate Hself; injection Hself as ->;
    crunch; try absurd_slots Hpaired;
    eexists; eexists; (split; [reflexivity|]);
    cbn; repeat split; try reflexivity;
    eexists; repeat split; reflexivity.
Qed.

Lemma close_merges_and_mirrors_witness :
  exists w' this',
    close First READ (snd (close First WRITE (pipeStream 8))) = (Returned tt, w') /\
    deref First w' = Some this' /\
    m_closed this' = Z.lor WRITE READ /\
    m_otherClosed this' = NONE /\
    m_readBuffer this' = [] /\
    exists otherStream',
      deref Second w' = Some otherStream' /\
      m_otherClosed otherStream' = Z.lor WRITE READ /\
      m_closed otherStream' = NONE /\
      m_readBuffer otherStream' = [] /\
      m_pendingReader otherStream' = None /\
      m_pendingWriter otherStream' = None.
Proof.
  apply (close_merges_and_mirrors First READ
           (snd (close First WRITE (pipeStream 8)))
           (set_closed WRITE (PipeStream_ctor 8)) eq_refl).
  split; discriminate.
Defined.

(** X6.  Whom [close] wakes is decided by the merged close state, not by the
    argument alone: the fiber held in the endpoint's own pending-reader field
    is resumed exactly when the merged state includes Write, the one in the
    pending-writer field exactly when it includes Read; a field that is not
    resumed keeps its fiber. *)
Theorem close_wakes_by_merged_state
    (self : Side) (type : CloseType) (w : World) (this : PipeStream) :
  deref self w = Some this ->
  slots_paired this ->
  let closed := Z.lor (m_closed this) type in
  exists this',
    deref self (snd (close self type w)) = Some this' /\
    trace (snd (close self type w))
    = trace w
      ++ (if has WRITE closed
          then wake_events self ReaderSlot
                 (m_pendingReader this) (m_pendingReaderScheduler this)
          else [])
      ++ (if has READ closed
          then wake_events self WriterSlot
                 (m_pendingWriter this) (m_pendingWriterScheduler this)
          else []) /\
    m_pendingReader this'
    = (if has WRITE closed then None else m_pendingReader this) /\
    m_pendingWriter this'
    = (if has READ closed then None else m_pendingWriter this).
Proof.
  intros Hself Hpaired closed. subst closed.
  unfold slots_paired in Hpaired. unfold wake_events. revert Hself.
  open_world w; destruct self; cbn [deref first second other];
    intro Hself; try discriminate Hself; injection Hself as ->;
    crunch; try absurd_slots Hpaired;
    eexists; (split; [reflexivity|]);
    cbn [app set_pendingReader set_pendingWriter set_closed
           m_pendingReader m_pendingWriter];
    rewrite <- ?app_assoc, ?app_nil_r; cbn [app];
    repeat split; congruence.
Qed.

Lemma close_wakes_by_merged_state_witness :
  exists this',
    deref Second (snd (close Second WRITE reader_parked)) = Some this' /\
    trace (snd (close Second WRITE reader_parked))
    = [EvSchedule Second ReaderSlot 1%nat 1%nat; EvReset Second ReaderSlot] /\
    m_pendingReader this' = None /\
    m_pendingWriter this' = None.
Proof.
  exact (close_wakes_by_merged_state Second WRITE reader_parked
           (with_pendingReader 1%nat 1%nat (PipeStream_ctor 4))
           eq_refl
           (conj (fun _ => eq_refl) (fun H => H))).
Defined.

(** X7.  The destructor, when the peer is gone or has nobody stored on it,
    resumes whoever is stored on the dying object, the pending reader first
    and the pending writer after it, and removes the object; the peer is not
    touched. *)
Theorem destroy_wakes_own_waiters (self : Side) (w : World) (this : PipeStream) :
  deref self w = Some this ->
  slots_paired this ->
  on_object (fun p => m_pendingReader p = None /\ m_pendingWriter p = None)
    (other self) w ->
  exists w',
    destroy self w = (Returned tt, w') /\
    deref self w' = None /\
    deref (other self) w' = deref (other self) w /\
    trace w'
    = trace w
      ++ wake_events self ReaderSlot
           (m_pendingReader this) (m_pendingReaderScheduler this)
      ++ wake_events self WriterSlot
           (m_pendingWriter this) (m_pendingWriterScheduler this).
Proof.
  intros Hself Hpaired Hidle.
  unfold slots_paired in Hpaired. unfold on_object in Hidle.
  unfold wake_events.
  destruct (m_pendingReader this) eqn:Hreader;
    destruct (m_pendingReaderScheduler this) eqn:Hrs;
    destruct (m_pendingWriter this) eqn:Hwriter;
    destruct (m_pendingWriterScheduler this) eqn:Hws;
    try absurd_slots Hpaired;
    (destruct (deref (other self) w) as [otherStream|] eqn:Hother;
     [destruct Hidle as [Hor How]|]);
    eexists; (split; [run; reflexivity|]);
    run; cbn [trace]; autorewrite with store;
    rewrite <- ?app_assoc, ?app_nil_r; cbn [app]; repeat split; reflexivity.
Qed.

Lemma destroy_wakes_own_waiters_witness :
  exists w',
    destroy Second reader_parked = (Returned tt, w') /\
    deref Second w' = None /\
    deref First w' = Some (PipeStream_ctor 4) /\
    trace w' = [EvSchedule Second ReaderSlot 1%nat 1%nat; EvReset Second ReaderSlot].
Proof.
  exact (destroy_wakes_own_waiters Second reader_parked
           (with_pendingReader 1%nat 1%nat (PipeStream_ctor 4))
           eq_refl
           (conj (fun _ => eq_refl) (fun H => H))
           (conj eq_refl eq_refl)).
Defined.

(** X8.  The destructor's consistency check: while the peer is alive and
    holds a pending reader or a pending writer, which are fibers blocked in a
    call on the dying object, the assertion fails and nothing is changed. *)
Theorem destroy_asserts_peer_idle
    (self : Side) (w : World) (this otherStream : PipeStream) :
  deref self w = Some this ->
  deref (other self) w = Some otherStream ->
  m_pendingReader otherStream <> None \/ m_pendingWriter otherStream <> None ->
  destroy self w = (AssertionFailed, w).
Proof.
  intros Hself Hother Hbusy.
  destruct (m_pendingReader otherStream) eqn:Hreader.
  - run. reflexivity.
  - destruct (m_pendingWriter otherStream) eqn:Hwriter; [|tauto].
    run. reflexivity.
Qed.

Lemma destroy_asserts_peer_idle_witness :
  destroy First reader_parked = (AssertionFailed, reader_parked).
Proof.
  apply (destroy_asserts_peer_idle First reader_parked (PipeStream_ctor 4)
           (with_pendingReader 1%nat 1%nat (PipeStream_ctor 4))
           eq_refl eq_refl).
  left. discriminate.
Defined.

(** ** Error and edge behaviour of read and flush *)

Lemma read_bad_handle_only_if_closed
    (self : Side) (me : Fiber) (sched : Scheduler) (b : Buffer.t) (len : Z)
    (w : World) (this : PipeStream) :
  deref self w = Some this ->
  has READ (m_closed this) = false ->
  fst (read self me sched b len w) <> Threw BadHandleException.
Proof.
  intros Hself Hopen. revert Hself.
  open_world w; destruct self; cbn [deref first second];
    intro Hself; try discriminate Hself; injection Hself as ->;
    crunch; discriminate.
Qed.

(** X9.  [read] raises [BadHandleException] exactly when the endpoint's own
    close state includes Read, before it looks at the peer or at the buffer;
    and once the endpoint has closed Read, every later [read] on it raises
    that exception and changes nothing, whatever was buffered. *)
Theorem read_after_own_close
    (self : Side) (me : Fiber) (sched : Scheduler) (b : Buffer.t) (len : Z)
    (w : World) (this : PipeStream) :
  deref self w = Some this ->
  (fst (read self me sched b len w) = Threw BadHandleException
   <-> has READ (m_closed this) = true) /\
  (forall (w0 : World) (before : PipeStream) (type : CloseType),
      deref self w0 = Some before ->
      has READ type = true ->
      reachable_from (snd (close self type w0)) w ->
      read self me sched b len w = (Threw BadHandleException, w)).
Proof.
  intro Hself. split.
  - split.
    + intro Hthrew. destruct (has READ (m_closed this)) eqn:Hflag; [reflexivity|].
      exfalso. eapply read_bad_handle_only_if_closed; eassumption.
    + intro Hflag. run. reflexivity.
  - intros w0 before type Hbefore Htype Hreach.
    destruct (reachable_evolves _ _ _ _ Hreach Hself) as (p & Hp & _ & Hflags).
    destruct (close_sets_flags _ type _ _ Hbefore) as (q & Hq & Hset).
    rewrite Hp in Hq. injection Hq as ->.
    assert (Hflag : has READ (m_closed this) = true) by auto.
    run. reflexivity.
Qed.

Lemma read_after_own_close_witness :
  (fst (read Second 2%nat 2%nat [] 3 (snd (close Second READ three_buffered)))
   = Threw BadHandleException
   <-> has READ (m_closed (set_closed READ
                             (set_readBuffer [x61; x62; x63]%byte
                                (PipeStream_ctor 4)))) = true) /\
  read Second 2%nat 2%nat [] 3 (snd (close Second READ three_buffered))
  = (Threw BadHandleException, snd (close Second READ three_buffered)).
Proof.
  pose proof (read_after_own_close Second 2%nat 2%nat [] 3
                (snd (close Second READ three_buffered))
                (set_closed READ
                   (set_readBuffer [x61; x62; x63]%byte (PipeStream_ctor 4)))
                eq_refl) as [Hiff Hlater].
  split; [exact Hiff|].
  apply (Hlater three_buffered
           (set_readBuffer [x61; x62; x63]%byte (PipeStream_ctor 4)) READ);
    [reflexivity | reflexivity | apply reach_here].
Defined.

(** X10.  [flush] raises [BrokenPipeException] exactly when the peer is gone
    or the peer's own close state includes Read.  Otherwise, while the peer
    still holds unread bytes and nobody is stored as its pending writer,
    [flush] stores the caller there and yields. *)
Theorem flush_outcomes
    (self : Side) (me : Fiber) (sched : Scheduler) (w : World) (this : PipeStream) :
  deref self w = Some this ->
  (fst (flush self me sched w) = Threw BrokenPipeException
   <-> (deref (other self) w = None \/
        exists otherStream,
          deref (other self) w = Some otherStream /\
          has READ (m_closed otherStream) = true)) /\
  (forall otherStream,
      deref (other self) w = Some otherStream ->
      has READ (m_closed otherStream) = false ->
      Buffer.readAvailable (m_readBuffer otherStream) <> 0 ->
      m_pendingWriter otherStream = None ->
      flush self me sched w
      = (Yielded,
         put (other self) (Some (with_pendingWriter me sched otherStream)) w)).
Proof.
  intro Hself. split.
  - split.
    + intro Hthrew.
      destruct (deref (other self) w) as [otherStream|] eqn:Hother;
        [right | left; reflexivity].
      exists otherStream. split; [reflexivity|].
      destruct (has READ (m_closed otherStream)) eqn:Hflag; [reflexivity|].
      exfalso. revert Hthrew.
      destruct (Buffer.readAvailable (m_readBuffer otherStream) =? 0) eqn:Hdrained;
        [|destruct (m_pendingWriter otherStream) eqn:Hslot];
        run; discriminate.
    + intros [Hgone | (otherStream & Hother & Hflag)]; run; reflexivity.
  - intros otherStream Hother Hflag Hdata Hfree.
    apply Z.eqb_neq in Hdata. run. reflexivity.
Qed.

Lemma flush_outcomes_witness :
  (fst (flush First 1%nat 1%nat (snd (close Second READ (pipeStream 8))))
   = Threw BrokenPipeException
   <-> (deref Second (snd (close Second READ (pipeStream 8))) = None \/
        exists otherStream,
          deref Second (snd (close Second READ (pipeStream 8))) = Some otherStream /\
          has READ (m_closed otherStream) = true)) /\
  flush First 1%nat 1%nat three_buffered
  = (Yielded,
     put Second
       (Some (with_pendingWriter 1%nat 1%nat
                (set_readBuffer [x61; x62; x63]%byte (PipeStream_ctor 4))))
       three_buffered).
Proof.
  split.
  - apply (flush_outcomes First 1%nat 1%nat
             (snd (close Second READ (pipeStream 8)))
             (set_otherClosed READ (PipeStream_ctor 8)) eq_refl).
  - apply (proj2 (flush_outcomes First 1%nat 1%nat three_buffered
                    (PipeStream_ctor 4) eq_refl)
             (set_readBuffer [x61; x62; x63]%byte (PipeStream_ctor 4)));
      [reflexivity | reflexivity | cbn; lia | reflexivity].
Defined.

(** ** What the methods never do *)

(** X11.  [flush] moves no byte and sets no close flag: all it ever changes
    in the pair is the peer's pending-writer field, where it stores the
    caller when it has to wait. *)
Theorem flush_only_parks
    (self : Side) (me : Fiber) (sched : Scheduler) (w : World) :
  snd (flush self me sched w) = w \/
  exists otherStream,
    deref (other self) w = Some otherStream /\
    m_pendingWriter otherStream = None /\
    Buffer.readAvailable (m_readBuffer otherStream) <> 0 /\
    snd (flush self me sched w)
    = put (other self) (Some (with_pendingWriter me sched otherStream)) w.
Proof.
  open_world w; destruct self; crunch;
    try (left; reflexivity);
    right; eexists; (split; [reflexivity|]);
    match goal with
    | H : negb (isSome ?o) = true |- _ => destruct o; [discriminate H|]
    end;
    match goal with
    | H : (_ =? 0) = false |- _ => apply Z.eqb_neq in H
    end;
    repeat split; auto.
Qed.

(** X12.  Once the peer has been destroyed, no call on the surviving
    endpoint yields and none fails an assertion: [read], [write] and [flush]
    return or raise at once. *)
Theorem survivor_never_waits (c : Call) (w : World) :
  deref (other (callee c)) w = None ->
  outcome_of c w <> Yielded /\ outcome_of c w <> AssertionFailed.
Proof.
  intro Hgone. revert Hgone.
  open_world w;
    destruct c as [s ? ? ? ?|s ? ? ? ?|s ? ?|s ?|s]; destruct s;
    cbn [callee other deref first second outcome_of];
    intro Hgone; try discriminate Hgone;
    crunch; cbn [forget]; split; discriminate.
Qed.

Lemma survivor_never_waits_witness :
  outcome_of (CallRead Second 2%nat 2%nat [] 3) writer_vanished <> Yielded /\
  outcome_of (CallRead Second 2%nat 2%nat [] 3) writer_vanished <> AssertionFailed.
Proof.
  apply (survivor_never_waits (CallRead Second 2%nat 2%nat [] 3) writer_vanished).
  reflexivity.
Defined.


Lemma defined_when_paired (c : Call) (w : World) (this : PipeStream) :
  deref (callee c) w = Some this ->
  slots_paired this ->
  outcome_of c w <> Undefined.
Proof.
  intros Hself Hpaired. unfold slots_paired in Hpaired. revert Hself.
  open_world w;
    destruct c as [s ? ? ? ?|s ? ? ? ?|s ? ?|s ?|s]; destruct s;
    cbn [callee deref first second outcome_of];
    intro Hself; try discriminate Hself; injection Hself as ->;
    crunch; cbn [forget]; try discriminate; absurd_slots Hpaired.
Qed.

(** X14.  The constructor leaves the two scheduler pointers uninitialised.
    In every state that follows the creation of a pair, no call on a live
    endpoint goes through such a pointer: whenever a pending fiber is
    scheduled, its scheduler has been stored with it. *)
Theorem schedulers_are_initialised_when_used
    (bufferSize : Z) (w : World) (c : Call) :
  reachable_from (pipeStream bufferSize) w ->
  deref (callee c) w <> None ->
  outcome_of c w <> Undefined.
Proof.
  intros Hreach Halive.
  destruct (deref (callee c) w) as [this|] eqn:Hself; [|congruence].
  apply (defined_when_paired c w this Hself).
  pose proof (reachable_slots_paired _ _ Hreach
                (pipeStream_slots_paired bufferSize) (callee c)) as Hpaired.
  unfold on_object in Hpaired. rewrite Hself in Hpaired. exact Hpaired.
Qed.

Lemma schedulers_are_initialised_when_used_witness :
  outcome_of (CallRead Second 3%nat 3%nat [] 3) writer_parked <> Undefined.
Proof.
  apply (schedulers_are_initialised_when_used 4 writer_parked
           (CallRead Second 3%nat 3%nat [] 3)).
  - apply (reach_call (pipeStream 4) three_buffered
             (CallWrite First 2%nat 2%nat [x64; x65]%byte 2)).
    apply (reach_call (pipeStream 4) (pipeStream 4)
             (CallWrite First 1%nat 1%nat [x61; x62; x63]%byte 3)).
    apply reach_here.
  - discriminate.
Defined.

(** A state reached by two writes, the second of them parked. *)
Lemma pair_invariants_witness :
  on_object slots_paired Second writer_parked /\
  on_object (fun p => m_bufferSize p = 4) Second writer_parked /\
  on_object bounded Second writer_parked.
Proof.
  pose proof (pair_invariants 4 writer_parked Second
                (reach_call (pipeStream 4) three_buffered
                   (CallWrite First 2%nat 2%nat [x64; x65]%byte 2)
                   (reach_call (pipeStream 4) (pipeStream 4)
                      (CallWrite First 1%nat 1%nat [x61; x62; x63]%byte 3)
                      (reach_here (pipeStream 4)))))
    as (Hpaired & Hsize & Hbounded).
  split; [exact Hpaired|]. split; [exact Hsize|].
  apply Hbounded. cbn. lia.
Defined.

(** ** Waiters woken by close and by the destructor *)

(** [close] on an object that holds one waiter, in the field [slot], with a
    direction that resumes it. *)
Lemma close_resumes
    (x : Side) (type : CloseType) (w : World) (p q : PipeStream)
    (slot : Slot) (f : Fiber) (s : Scheduler) :
  deref x w = Some p ->
  deref (other x) w = Some q ->
  match slot with
  | ReaderSlot =>
      m_pendingReader p = Some f /\ m_pendingReaderScheduler p = Some s /\
      m_pendingWriter p = None /\ has WRITE (Z.lor (m_closed p) type) = true
  | WriterSlot =>
      m_pendingWriter p = Some f /\ m_pendingWriterScheduler p = Some s /\
      m_pendingReader p = None /\ has READ (Z.lor (m_closed p) type) = true
  end ->
  exists w' p',
    close x type w = (Returned tt, w') /\
    deref x w' = Some p' /\
    m_closed p' = Z.lor (m_closed p) type /\
    deref (other x) w' = Some (set_otherClosed (Z.lor (m_closed p) type) q) /\
    trace w' = trace w ++ [EvSchedule x slot s f; EvReset x slot].
Proof.
  intros Hx Hother Hslot.
  destruct slot; destruct Hslot as (Hheld & Hsched & Hfree & Hflag);
    eexists; eexists; (split; [run; reflexivity|]);
    run; cbn [trace]; autorewrite with store;
    rewrite <- ?app_assoc; cbn [app]; repeat split; reflexivity.
Qed.

(** The destructor of an object that holds one waiter, in the field [slot],
    its peer holding none. *)
Lemma destroy_resumes
    (x : Side) (w : World) (p q : PipeStream)
    (slot : Slot) (f : Fiber) (s : Scheduler) :
  deref x w = Some p ->
  deref (other x) w = Some q ->
  m_pendingReader q = None ->
  m_pendingWriter q = None ->
  match slot with
  | ReaderSlot =>
      m_pendingReader p = Some f /\ m_pendingReaderScheduler p = Some s /\
      m_pendingWriter p = None
  | WriterSlot =>
      m_pendingWriter p = Some f /\ m_pendingWriterScheduler p = Some s /\
      m_pendingReader p = None
  end ->
  exists w',
    destroy x w = (Returned tt, w') /\
    deref x w' = None /\
    deref (other x) w' = Some q /\
    trace w' = trace w ++ [EvSchedule x slot s f; EvReset x slot].
Proof.
  intros Hx Hother Hqr Hqw Hslot.
  destruct slot; destruct Hslot as (Hheld & Hsched & Hfree);
    eexists; (split; [run; reflexivity|]);
    run; cbn [trace]; autorewrite with store;
    rewrite <- ?app_assoc; cbn [app]; repeat split; reflexivity.
Qed.

(** X15.  A reader parked on an empty pipe is released by the peer's close
    of Write: its [read] yields, the peer's [close] schedules it and resets
    the field, and from then on its [read] returns 0. *)
Theorem parked_reader_sees_end_of_stream
    (self : Side) (me : Fiber) (sched : Scheduler) (b : Buffer.t) (len : Z)
    (type : CloseType) (w : World) (this otherStream : PipeStream) :
  deref self w = Some this ->
  deref (other self) w = Some otherStream ->
  has READ (m_closed this) = false ->
  m_readBuffer this = [] ->
  has WRITE (m_otherClosed this) = false ->
  m_pendingReader otherStream = None ->
  m_pendingWriter otherStream = None ->
  has WRITE type = true ->
  exists w1 w2,
    read self me sched b len w = (Yielded, w1) /\
    close (other self) type w1 = (Returned tt, w2) /\
    trace w2
    = trace w ++ [EvSchedule (other self) ReaderSlot sched me;
                  EvReset (other self) ReaderSlot] /\
    forall b' len', read self me sched b' len' w2 = (Returned (0, b'), w2).
Proof.
  intros Hself Hother Hopen Hempty Hpeer Hfree Hnowriter Htype.
  pose proof (read_parks_on_peer self me sched b len w this otherStream
                Hself Hother Hopen Hempty Hpeer Hfree) as Hread.
  set (w1 := put (other self) (Some (with_pendingReader me sched otherStream)) w) in *.
  destruct (close_resumes (other self) type w1
              (with_pendingReader me sched otherStream) this
              ReaderSlot me sched)
    as (w2 & p' & Hclose & _ & _ & Hmine & Htrace).
  { subst w1. now autorewrite with store. }
  { subst w1. now autorewrite with store. }
  { cbn. repeat split; auto using has_lor_r. }
  rewrite other_involutive in Hmine.
  exists w1, w2. split; [exact Hread|]. split; [exact Hclose|].
  split; [subst w1; autorewrite with store in Htrace; exact Htrace|].
  intros b' len'. eapply read_at_end; [exact Hmine| | |]; cbn;
    auto using has_lor_r.
Qed.

Lemma parked_reader_sees_end_of_stream_witness :
  exists w1 w2,
    read First 1%nat 1%nat [] 3 (pipeStream 4) = (Yielded, w1) /\
    close Second WRITE w1 = (Returned tt, w2) /\
    trace w2 = [EvSchedule Second ReaderSlot 1%nat 1%nat; EvReset Second ReaderSlot] /\
    forall b' len', read First 1%nat 1%nat b' len' w2 = (Returned (0, b'), w2).
Proof.
  apply (parked_reader_sees_end_of_stream First 1%nat 1%nat [] 3 WRITE
           (pipeStream 4) (PipeStream_ctor 4) (PipeStream_ctor 4));
    reflexivity.
Defined.

(** X16.  A writer parked on a full pipe is released by the peer's close of
    Read: its [write] yields, the peer's [close] schedules it and resets the
    field, and from then on its [write] raises [BrokenPipeException]. *)
Theorem parked_writer_sees_broken_pipe
    (self : Side) (me : Fiber) (sched : Scheduler) (b : Buffer.t) (len : Z)
    (type : CloseType) (w : World) (this otherStream : PipeStream) :
  deref self w = Some this ->
  deref (other self) w = Some otherStream ->
  has WRITE (m_closed this) = false ->
  has READ (m_closed otherStream) = false ->
  (size_add (Buffer.readAvailable (m_readBuffer otherStream))
     (clamp (m_bufferSize this) len) <=? m_bufferSize this) = false ->
  m_pendingReader otherStream = None ->
  m_pendingWriter otherStream = None ->
  has READ type = true ->
  exists w1 w2,
    write self me sched b len w = (Yielded, w1) /\
    close (other self) type w1 = (Returned tt, w2) /\
    trace w2
    = trace w ++ [EvSchedule (other self) WriterSlot sched me;
                  EvReset (other self) WriterSlot] /\
    forall b' len',
      write self me sched b' len' w2 = (Threw BrokenPipeException, w2).
Proof.
  intros Hself Hother Hopen Hpeer Hover Hnoreader Hfree Htype.
  set (w1 := put (other self) (Some (with_pendingWriter me sched otherStream)) w).
  assert (Hwrite : write self me sched b len w = (Yielded, w1))
    by (subst w1; run; reflexivity).
  destruct (close_resumes (other self) type w1
              (with_pendingWriter me sched otherStream) this
              WriterSlot me sched)
    as (w2 & p' & Hclose & Hpeer2 & Hclosed2 & Hmine & Htrace).
  { subst w1. now autorewrite with store. }
  { subst w1. now autorewrite with store. }
  { cbn. repeat split; auto using has_lor_r. }
  rewrite other_involutive in Hmine.
  exists w1, w2. split; [exact Hwrite|]. split; [exact Hclose|].
  split; [subst w1; autorewrite with store in Htrace; exact Htrace|].
  intros b' len'.
  eapply write_peer_unavailable; [exact Hmine | exact Hopen |].
  right. exists p'. split; [exact Hpeer2|].
  rewrite Hclosed2. auto using has_lor_r.
Qed.

Lemma parked_writer_sees_broken_pipe_witness :
  exists w1 w2,
    write First 2%nat 2%nat [x64; x65]%byte 2 three_buffered = (Yielded, w1) /\
    close Second READ w1 = (Returned tt, w2) /\
    trace w2 = [EvSchedule Second WriterSlot 2%nat 2%nat; EvReset Second WriterSlot] /\
    forall b' len',
      write First 2%nat 2%nat b' len' w2 = (Threw BrokenPipeException, w2).
Proof.
  apply (parked_writer_sees_broken_pipe First 2%nat 2%nat [x64; x65]%byte 2 READ
           three_buffered (PipeStream_ctor 4)
           (set_readBuffer [x61; x62; x63]%byte (PipeStream_ctor 4)));
    reflexivity.
Defined.

(** X17.  A reader or a writer parked on the peer is released when the peer
    is destroyed without a close: the destructor schedules it and resets the
    field, and from then on its [read], respectively [write], raises
    [BrokenPipeException]. *)
Theorem parked_waiter_sees_peer_destroyed
    (self : Side) (me : Fiber) (sched : Scheduler) (b : Buffer.t) (len : Z)
    (w : World) (this otherStream : PipeStream) :
  deref self w = Some this ->
  deref (other self) w = Some otherStream ->
  m_pendingReader this = None ->
  m_pendingWriter this = None ->
  m_pendingReader otherStream = None ->
  m_pendingWriter otherStream = None ->
  (has READ (m_closed this) = false ->
   m_readBuffer this = [] ->
   has WRITE (m_otherClosed this) = false ->
   exists w1 w2,
     read self me sched b len w = (Yielded, w1) /\
     destroy (other self) w1 = (Returned tt, w2) /\
     trace w2
     = trace w ++ [EvSchedule (other self) ReaderSlot sched me;
                   EvReset (other self) ReaderSlot] /\
     forall b' len',
       read self me sched b' len' w2 = (Threw BrokenPipeException, w2)) /\
  (has WRITE (m_closed this) = false ->
   has READ (m_closed otherStream) = false ->
   (size_add (Buffer.readAvailable (m_readBuffer otherStream))
      (clamp (m_bufferSize this) len) <=? m_bufferSize this) = false ->
   exists w1 w2,
     write self me sched b len w = (Yielded, w1) /\
     destroy (other self) w1 = (Returned tt, w2) /\
     trace w2
     = trace w ++ [EvSchedule (other self) WriterSlot sched me;
                   EvReset (other self) WriterSlot] /\
     forall b' len',
       write self me sched b' len' w2 = (Threw BrokenPipeException, w2)).
Proof.
  intros Hself Hother Hmr Hmw Hor How. split.
  - intros Hopen Hempty Hpeer.
    pose proof (read_parks_on_peer self me sched b len w this otherStream
                  Hself Hother Hopen Hempty Hpeer Hor) as Hread.
    set (w1 := put (other self) (Some (with_pendingReader me sched otherStream)) w) in *.
    destruct (destroy_resumes (other self) w1
                (with_pendingReader me sched otherStream) this
                ReaderSlot me sched)
      as (w2 & Hdestroy & Hgone & Hmine & Htrace); try assumption.
    { subst w1. now autorewrite with store. }
    { subst w1. now autorewrite with store. }
    { cbn. auto. }
    rewrite other_involutive in Hmine.
    exists w1, w2. split; [exact Hread|]. split; [exact Hdestroy|].
    split; [subst w1; autorewrite with store in Htrace; exact Htrace|].
    intros b' len'. clear Hread. clearbody w1. clear Hself Hother.
    run. reflexivity.
  - intros Hopen Hpeer Hover.
    set (w1 := put (other self) (Some (with_pendingWriter me sched otherStream)) w).
    assert (Hwrite : write self me sched b len w = (Yielded, w1))
      by (subst w1; run; reflexivity).
    destruct (destroy_resumes (other self) w1
                (with_pendingWriter me sched otherStream) this
                WriterSlot me sched)
      as (w2 & Hdestroy & Hgone & Hmine & Htrace); try assumption.
    { subst w1. now autorewrite with store. }
    { subst w1. now autorewrite with store. }
    { cbn. auto. }
    rewrite other_involutive in Hmine.
    exists w1, w2. split; [exact Hwrite|]. split; [exact Hdestroy|].
    split; [subst w1; autorewrite with store in Htrace; exact Htrace|].
    intros b' len'.
    eapply write_peer_unavailable; [exact Hmine | exact Hopen |].
    left. exact Hgone.
Qed.

Lemma parked_waiter_sees_peer_destroyed_witness :
  (exists w1 w2,
      read First 1%nat 1%nat [] 3 (pipeStream 4) = (Yielded, w1) /\
      destroy Second w1 = (Returned tt, w2) /\
      trace w2 = [EvSchedule Second ReaderSlot 1%nat 1%nat; EvReset Second ReaderSlot] /\
      forall b' len',
        read First 1%nat 1%nat b' len' w2 = (Threw BrokenPipeException, w2)) /\
  (exists w1 w2,
      write First 2%nat 2%nat [x64; x65]%byte 2 three_buffered = (Yielded, w1) /\
      destroy Second w1 = (Returned tt, w2) /\
      trace w2 = [EvSchedule Second WriterSlot 2%nat 2%nat; EvReset Second WriterSlot] /\
      forall b' len',
        write First 2%nat 2%nat b' len' w2 = (Threw BrokenPipeException, w2)).
Proof.
  split.
  - apply (parked_waiter_sees_peer_destroyed First 1%nat 1%nat [] 3
             (pipeStream 4) (PipeStream_ctor 4) (PipeStream_ctor 4));
      reflexivity.
  - apply (proj2 (parked_waiter_sees_peer_destroyed First 2%nat 2%nat
                    [x64; x65]%byte 2 three_buffered (PipeStream_ctor 4)
                    (set_readBuffer [x61; x62; x63]%byte (PipeStream_ctor 4))
                    eq_refl eq_refl eq_refl eq_refl eq_refl eq_refl));
      reflexivity.
Defined.

(** ** End of stream, and the mirror of the close state *)

(** X18.  A zero count from a [read] that asked for at least one byte means
    end of stream and nothing else: the inbound buffer is empty, the peer has
    closed Write, and the call changed neither the pair nor the caller's
    buffer. *)
Theorem zero_read_means_end_of_stream
    (self : Side) (me : Fiber) (sched : Scheduler) (b b' : Buffer.t) (len : Z)
    (w w' : World) (this : PipeStream) :
  deref self w = Some this ->
  0 < len ->
  read self me sched b len w = (Returned (0, b'), w') ->
  m_readBuffer this = [] /\
  has WRITE (m_otherClosed this) = true /\
  w' = w /\ b' = b.
Proof.
  intros Hself Hlen.
  destruct (has READ (m_closed this)) eqn:Hr; [run; discriminate|].
  pose proof (readAvailable_nonneg (m_readBuffer this)) as Hnonneg.
  destruct (0 <? Buffer.readAvailable (m_readBuffer this)) eqn:Havail.
  - apply Z.ltb_lt in Havail as Hpos.
    assert (Hmin : Z.min len (Buffer.readAvailable (m_readBuffer this)) <> 0) by lia.
    destruct (deref (other self) w) as [otherStream|] eqn:Hother;
      destruct (has WRITE (m_otherClosed this)) eqn:Hpeer;
      destruct (m_pendingWriter this) eqn:Hslot;
      try destruct (m_pendingWriterScheduler this) eqn:Hsched;
      run; intro Hrun; inversion Hrun; congruence.
  - apply Z.ltb_ge in Havail.
    assert (Hnil : m_readBuffer this = []).
    { destruct (m_readBuffer this); [reflexivity|].
      unfold Buffer.readAvailable in Havail. cbn [length] in Havail. lia. }
    destruct (deref (other self) w) as [otherStream|] eqn:Hother;
      destruct (has WRITE (m_otherClosed this)) eqn:Hpeer;
      try destruct (m_pendingReader otherStream) eqn:Hslot;
      run; intro Hrun; inversion Hrun; subst; auto.
Qed.

Lemma zero_read_means_end_of_stream_witness :
  m_readBuffer (set_otherClosed WRITE (PipeStream_ctor 8)) = [] /\
  has WRITE (m_otherClosed (set_otherClosed WRITE (PipeStream_ctor 8))) = true /\
  snd (close First WRITE (pipeStream 8)) = snd (close First WRITE (pipeStream 8)) /\
  @nil byte = [].
Proof.
  apply (zero_read_means_end_of_stream Second 2%nat 2%nat [] [] 3
           (snd (close First WRITE (pipeStream 8)))
           (snd (close First WRITE (pipeStream 8)))
           (set_otherClosed WRITE (PipeStream_ctor 8)));
    [reflexivity | lia | reflexivity].
Defined.

Lemma exec_mirrored (c : Call) (w : World) :
  mirrored w -> mirrored (exec c w).
Proof.
  unfold mirrored.
  open_world w;
    destruct c as [s ? ? ? ?|s ? ? ? ?|s ? ?|s ?|s]; destruct s;
    crunch; cbn; intros; try exact I; intuition congruence.
Qed.

(** X19.  In every state that follows the creation of a pair and in which
    both endpoints are alive, each endpoint's record of its peer's close state
    equals the peer's own close state: only [close] writes either of them,
    and it writes both. *)
Theorem close_state_is_mirrored
    (bufferSize : Z) (w : World) (x : Side) (p q : PipeStream) :
  reachable_from (pipeStream bufferSize) w ->
  deref x w = Some p ->
  deref (other x) w = Some q ->
  m_otherClosed p = m_closed q.
Proof.
  intros Hreach Hp Hq.
  assert (Hm : mirrored w).
  { clear Hp Hq. induction Hreach.
    - cbn. auto.
    - now apply exec_mirrored. }
  unfold mirrored in Hm.
  destruct x; cbn [deref other] in Hp, Hq; rewrite Hp, Hq in Hm; tauto.
Qed.

Lemma close_state_is_mirrored_witness :
  m_otherClosed (set_otherClosed WRITE (PipeStream_ctor 8))
  = m_closed (set_closed WRITE (PipeStream_ctor 8)).
Proof.
  apply (close_state_is_mirrored 8 (exec (CallClose First WRITE) (pipeStream 8))
           Second
           (set_otherClosed WRITE (PipeStream_ctor 8))
           (set_closed WRITE (PipeStream_ctor 8)));
    [apply reach_call, reach_here | reflexivity | reflexivity].
Defined.
